(** * awesome-tools: the rate limiter and the rate-limited scraper

    A shallow embedding of [rate-limiter/ratelimiter.go] and
    [scraper/scraper.go].  Goroutines are program counters, channels are
    bounded queues, and the Go scheduler is an interleaving of atomic
    actions: [exec a w] performs action [a] in world [w] when the goroutine
    it belongs to can move ([None] is "blocked").  A [select] with several
    ready cases contributes one action per case. *)

From Stdlib Require Import ZArith String DecimalString DecimalNat.
From stdpp Require Import base list.

Local Open Scope Z_scope.
Local Open Scope nat_scope.

(** ** Go channels *)

(** The result of trying a channel operation now. *)
Inductive outcome (A : Type) : Type :=
| Ready (a : A)
| Blocked
| Panic.
Arguments Ready {A} a.
Arguments Blocked {A}.
Arguments Panic {A}.

(** [make(chan A, n)]: a queue of at most [cap] elements.  With [cap = 0]
    the channel is unbuffered: a send completes only together with a
    receive.  [stopCh] is the one channel made unbuffered, and its
    rendezvous is the action [Stop] below; on the others a capacity of 0
    comes with nothing to send (no URLs) or with a goroutine that panics
    before its first send ([intervals = 0]). *)
Record chan (A : Type) : Type := Chan {
  buf : list A;
  cap : nat;
  closed : bool
}.
Arguments Chan {A} buf cap closed.
Arguments buf {A} c.
Arguments cap {A} c.
Arguments closed {A} c.

Definition make {A : Type} (n : nat) : chan A := Chan [] n false.

(** [c <- x] *)
Definition send {A : Type} (x : A) (c : chan A) : outcome (chan A) :=
  if closed c then Panic
  else if length (buf c) <? cap c
       then Ready (Chan (buf c ++ [x]) (cap c) (closed c))
       else Blocked.

(** [<-c]: [Some x] is a value, [None] the zero value of a closed and
    drained channel. *)
Definition recv {A : Type} (c : chan A) : outcome (option A * chan A) :=
  match buf c with
  | x :: rest => Ready (Some x, Chan rest (cap c) (closed c))
  | [] => if closed c then Ready (None, c) else Blocked
  end.

(** [close(c)] *)
Definition close {A : Type} (c : chan A) : outcome (chan A) :=
  if closed c then Panic else Ready (Chan (buf c) (cap c) true).

(** ** Contexts *)

(** A [context.Context] is named by a number; [cancelled] lists the names
    whose [Done()] channel is closed. *)
Definition ctx_id := nat.

Definition is_done (c : ctx_id) (cancelled : list ctx_id) : bool :=
  existsb (Nat.eqb c) cancelled.

(** ** package ratelimiter *)

(** Where the goroutine started by [NewRateLimiter] stands:
    before [time.NewTicker], in the [select], in the send
    [limitCh <- struct{}{}] of the [ticker.C] case, or returned. *)
Inductive ticker_pc : Type := TStart | TSelect | TSend | TReturned.

(** The [RateLimiter] handle with the objects behind it: the token channel
    [limitCh] and the goroutine that fills it, which captured [ctx],
    [timeSpan] and [intervals].  [stopCh] is unbuffered and never closed,
    so it carries no state of its own. *)
Record RateLimiter : Type := MkRateLimiter {
  limitCh : chan unit;
  rl_ctx : ctx_id;
  timeSpan : Z;
  intervals : Z;
  pc : ticker_pc
}.

Definition with_limitCh (rl : RateLimiter) (ch : chan unit) : RateLimiter :=
  MkRateLimiter ch (rl_ctx rl) (timeSpan rl) (intervals rl) (pc rl).

Definition with_pc (rl : RateLimiter) (p : ticker_pc) : RateLimiter :=
  MkRateLimiter (limitCh rl) (rl_ctx rl) (timeSpan rl) (intervals rl) p.

(** [NewRateLimiter(ctx, timeSpan, intervals)].  [make(chan struct{},
    intervals)] panics for a negative size ([None]); otherwise the goroutine
    is started and the handle returned.  There is no error result. *)
Definition NewRateLimiter (ctx : ctx_id) (timeSpan intervals : Z)
  : option RateLimiter :=
  if (intervals <? 0)%Z then None
  else Some (MkRateLimiter (make (Z.to_nat intervals)) ctx timeSpan intervals TStart).

(** [timeSpan / time.Duration(intervals)]: integer division, truncated
    towards zero; dividing by zero is a run-time panic ([None]). *)
Definition tick_period (timeSpan intervals : Z) : option Z :=
  if (intervals =? 0)%Z then None else Some (Z.quot timeSpan intervals).

(** The moves of the limiter's goroutine. *)
Inductive ticker_action : Type :=
| TkNewTicker   (* time.NewTicker(timeSpan / time.Duration(intervals)) *)
| TkTick        (* case <-ticker.C *)
| TkSend        (* limitCh <- struct{}{} *)
| TkCtxDone.    (* case <-ctx.Done(): return *)

Definition ticker_exec (t : ticker_action) (cancelled : list ctx_id)
    (rl : RateLimiter) : outcome RateLimiter :=
  match t, pc rl with
  | TkNewTicker, TStart =>
      match tick_period (timeSpan rl) (intervals rl) with
      | None => Panic
      | Some d => if (d <=? 0)%Z then Panic (* NewTicker: non-positive interval *)
                  else Ready (with_pc rl TSelect)
      end
  | TkTick, TSelect => Ready (with_pc rl TSend)
  | TkSend, TSend =>
      match send tt (limitCh rl) with
      | Ready ch => Ready (with_pc (with_limitCh rl ch) TSelect)
      | Blocked => Blocked
      | Panic => Panic
      end
  | TkCtxDone, TSelect =>
      if is_done (rl_ctx rl) cancelled then Ready (with_pc rl TReturned) else Blocked
  | _, _ => Blocked
  end.

(** The receive [<-rl.limitCh], used by [Wait] and, through [LimitCh], by
    the scraper's workers. *)
Definition take_token (rl : RateLimiter) : option RateLimiter :=
  match recv (limitCh rl) with
  | Ready (_, ch) => Some (with_limitCh rl ch)
  | _ => None
  end.

(** The two cases of the [select] in [Wait]. *)
Inductive wait_case : Type := CaseToken | CaseDone.

(** [rl.Wait(ctx)], by the case that fires: the value returned and the
    limiter afterwards; [None] when that case is not ready. *)
Definition Wait (br : wait_case) (cancelled : list ctx_id) (ctx : ctx_id)
    (rl : RateLimiter) : option (bool * RateLimiter) :=
  match br with
  | CaseToken =>
      match take_token rl with
      | Some rl' => Some (true, rl')
      | None => None
      end
  | CaseDone => if is_done ctx cancelled then Some (false, rl) else None
  end.

(** [rl.LimitCh(ctx)] hands out the token channel itself. *)
Definition LimitCh (ctx : ctx_id) (rl : RateLimiter) : chan unit := limitCh rl.

(** [rl.Stop()]: the send [stopCh <- struct{}{}] on an unbuffered channel
    returns when the goroutine takes it in its [select], and the goroutine
    then returns; nowhere else is [stopCh] received from. *)
Definition Stop (rl : RateLimiter) : option RateLimiter :=
  match pc rl with
  | TSelect => Some (with_pc rl TReturned)
  | _ => None
  end.

(** *** Goroutines that call the limiter *)

Inductive call : Type := CallWait (ctx : ctx_id) | CallStop.
Inductive ret : Type := RetWait (ok : bool) | RetStop.

#[global] Instance ret_eq_dec : EqDecision ret.
Proof. solve_decision. Defined.

(** A calling goroutine: the calls it still has to make, in order, and what
    the calls it made returned (latest first). *)
Record caller : Type := MkCaller {
  todo : list call;
  log : list ret
}.

Record RLWorld : Type := MkRLWorld {
  rw_cancelled : list ctx_id;
  rw_limiter : RateLimiter;
  rw_callers : list caller;
  rw_crashed : bool
}.

Inductive rl_action : Type :=
| RCancel (c : ctx_id)
| RTicker (t : ticker_action)
| RWait (i : nat) (br : wait_case)
| RStop (i : nat).

#[global] Instance ticker_action_eq_dec : EqDecision ticker_action.
Proof. solve_decision. Defined.
#[global] Instance wait_case_eq_dec : EqDecision wait_case.
Proof. solve_decision. Defined.
#[global] Instance rl_action_eq_dec : EqDecision rl_action.
Proof. solve_decision. Defined.

Definition rl_crash (w : RLWorld) : RLWorld :=
  MkRLWorld (rw_cancelled w) (rw_limiter w) (rw_callers w) true.

Definition rl_exec (a : rl_action) (w : RLWorld) : option RLWorld :=
  if rw_crashed w then None else
  match a with
  | RCancel c =>
      if is_done c (rw_cancelled w) then None
      else Some (MkRLWorld (c :: rw_cancelled w) (rw_limiter w) (rw_callers w) false)
  | RTicker t =>
      match ticker_exec t (rw_cancelled w) (rw_limiter w) with
      | Ready rl => Some (MkRLWorld (rw_cancelled w) rl (rw_callers w) false)
      | Blocked => None
      | Panic => Some (rl_crash w)
      end
  | RWait i br =>
      match rw_callers w !! i with
      | Some (MkCaller (CallWait ctx :: rest) lg) =>
          match Wait br (rw_cancelled w) ctx (rw_limiter w) with
          | Some (ok, rl) =>
              Some (MkRLWorld (rw_cancelled w) rl
                      (<[i := MkCaller rest (RetWait ok :: lg)]> (rw_callers w)) false)
          | None => None
          end
      | _ => None
      end
  | RStop i =>
      match rw_callers w !! i with
      | Some (MkCaller (CallStop :: rest) lg) =>
          match Stop (rw_limiter w) with
          | Some rl =>
              Some (MkRLWorld (rw_cancelled w) rl
                      (<[i := MkCaller rest (RetStop :: lg)]> (rw_callers w)) false)
          | None => None
          end
      | _ => None
      end
  end.

Fixpoint rl_run (tr : list rl_action) (w : RLWorld) : option RLWorld :=
  match tr with
  | [] => Some w
  | a :: tr' =>
      match rl_exec a w with
      | Some w' => rl_run tr' w'
      | None => None
      end
  end.

(** ** package scraper *)

Inductive error : Type :=
| RateLimiterNotSet            (* fmt.Errorf("rate limiter not set") *)
| ContextCanceled              (* context.Canceled, as ctx.Err() gives it *)
| TransportError (msg : string).

Record Result : Type := MkResult {
  URL : string;
  Content : string;
  Error : option error
}.

(** [ScrapeFunc]: [func(ctx, url) Result].  Of [ctx] the function can only
    learn whether it is done; the boolean is that answer at the call. *)
Definition ScrapeFunc : Type := bool → string → Result.

(** What [scrapeURL] needs of [net/http]: whether [NewRequestWithContext]
    accepts the URL, and what [client.Do] answers (a status code, or an
    error) given whether the request's context is done. *)
Record HTTPClient : Type := MkHTTPClient {
  NewRequestWithContext : string → option error;
  Do : bool → string → error + nat
}.

Definition status_line (code : nat) : string :=
  ("Status: " ++ NilEmpty.string_of_uint (Nat.to_uint code))%string.

Definition scrapeURL (client : HTTPClient) : ScrapeFunc :=
  fun done url =>
    match NewRequestWithContext client url with
    | Some err => MkResult url EmptyString (Some err)
    | None =>
        match Do client done url with
        | inl err => MkResult url EmptyString (Some err)
        | inr code => MkResult url (status_line code) None
        end
    end.

Record RateLimitedScraper : Type := MkScraper {
  client : HTTPClient;
  rlm : option RateLimiter;
  maxWorkers : Z;
  scrapeFunc : ScrapeFunc
}.

(** [ScrapeTimeoutDuration = 10 * time.Second], in nanoseconds. *)
Definition ScrapeTimeoutDuration : Z := 10 * 1000000000.

(** [NewScraper(rps, maxWorkers)].  [net] is what stands behind
    [&http.Client{Timeout: ScrapeTimeoutDuration}]; [rps] is not used. *)
Definition NewScraper (net : HTTPClient) (rps : Z) (maxWorkers : Z)
  : RateLimitedScraper :=
  MkScraper net None maxWorkers (scrapeURL net).

(** [s.SetRateLimit(ctx, timeSpan, intervals)]; [None] when
    [NewRateLimiter] panics. *)
Definition SetRateLimit (ctx : ctx_id) (timeSpan intervals : Z)
    (s : RateLimitedScraper) : option RateLimitedScraper :=
  match NewRateLimiter ctx timeSpan intervals with
  | Some r => Some (MkScraper (client s) (Some r) (maxWorkers s) (scrapeFunc s))
  | None => None
  end.

Definition SetScrapeFunc (fn : ScrapeFunc) (s : RateLimitedScraper)
  : RateLimitedScraper :=
  MkScraper (client s) (rlm s) (maxWorkers s) fn.

(** The goroutine that fills [urlChan]: the URLs still to send, or returned
    (its deferred [close(urlChan)] done). *)
Inductive seeder_pc : Type :=
| SeedLoop (rest : list string)
| SeedReturned.

(** A worker: at [range urlChan], in the [select] on the token channel and
    [ctx.Done()], calling [scrapeFunc], in the [select] on the send to
    [results] and [ctx.Done()], or returned (its deferred [wg.Done()]
    done). *)
Inductive worker_pc : Type :=
| WRange
| WSelectToken (url : string)
| WScrape (url : string)
| WSelectSend (r : Result)
| WReturned.

(** The closing goroutine: at [wg.Wait()], at [close(results)], in
    [s.rlm.Stop()], or returned. *)
Inductive sup_pc : Type := SupWait | SupClose | SupStop | SupReturned.

(** Everything one call of [ScrapeURLs] leaves running, with the caller
    reading the returned channel: [received] is what it has read so far,
    oldest first, and [drained] that it has seen the channel closed.
    [work] and [limiter] are [s.scrapeFunc] and [*s.rlm]: the scraper is
    not reconfigured while the call's goroutines run. *)
Record World : Type := MkWorld {
  cancelled : list ctx_id;
  ctx : ctx_id;
  work : ScrapeFunc;
  limiter : RateLimiter;
  urlChan : chan string;
  results : chan Result;
  seeder : seeder_pc;
  workers : list worker_pc;
  wg : nat;
  sup : sup_pc;
  received : list Result;
  drained : bool;
  crashed : bool
}.

Definition with_cancelled (w : World) (l : list ctx_id) : World :=
  MkWorld l (ctx w) (work w) (limiter w) (urlChan w) (results w) (seeder w)
    (workers w) (wg w) (sup w) (received w) (drained w) (crashed w).
Definition with_limiter (w : World) (rl : RateLimiter) : World :=
  MkWorld (cancelled w) (ctx w) (work w) rl (urlChan w) (results w) (seeder w)
    (workers w) (wg w) (sup w) (received w) (drained w) (crashed w).
Definition with_urlChan (w : World) (ch : chan string) : World :=
  MkWorld (cancelled w) (ctx w) (work w) (limiter w) ch (results w) (seeder w)
    (workers w) (wg w) (sup w) (received w) (drained w) (crashed w).
Definition with_results (w : World) (ch : chan Result) : World :=
  MkWorld (cancelled w) (ctx w) (work w) (limiter w) (urlChan w) ch (seeder w)
    (workers w) (wg w) (sup w) (received w) (drained w) (crashed w).
Definition with_seeder (w : World) (p : seeder_pc) : World :=
  MkWorld (cancelled w) (ctx w) (work w) (limiter w) (urlChan w) (results w) p
    (workers w) (wg w) (sup w) (received w) (drained w) (crashed w).
Definition with_worker (w : World) (i : nat) (p : worker_pc) : World :=
  MkWorld (cancelled w) (ctx w) (work w) (limiter w) (urlChan w) (results w)
    (seeder w) (<[i := p]> (workers w)) (wg w) (sup w) (received w) (drained w)
    (crashed w).
Definition with_wg (w : World) (n : nat) : World :=
  MkWorld (cancelled w) (ctx w) (work w) (limiter w) (urlChan w) (results w)
    (seeder w) (workers w) n (sup w) (received w) (drained w) (crashed w).
Definition with_sup (w : World) (p : sup_pc) : World :=
  MkWorld (cancelled w) (ctx w) (work w) (limiter w) (urlChan w) (results w)
    (seeder w) (workers w) (wg w) p (received w) (drained w) (crashed w).
Definition with_received (w : World) (l : list Result) : World :=
  MkWorld (cancelled w) (ctx w) (work w) (limiter w) (urlChan w) (results w)
    (seeder w) (workers w) (wg w) (sup w) l (drained w) (crashed w).
Definition with_drained (w : World) : World :=
  MkWorld (cancelled w) (ctx w) (work w) (limiter w) (urlChan w) (results w)
    (seeder w) (workers w) (wg w) (sup w) (received w) true (crashed w).
Definition crash (w : World) : World :=
  MkWorld (cancelled w) (ctx w) (work w) (limiter w) (urlChan w) (results w)
    (seeder w) (workers w) (wg w) (sup w) (received w) (drained w) true.

(** [s.ScrapeURLs(ctx, urls)]: the error, or the world it sets going; the
    channel returned is [results] of that world.  Both channels are made
    with capacity [len(urls)], one worker is started per
    [i < s.maxWorkers], each after [wg.Add(1)]. *)
Definition ScrapeURLs (s : RateLimitedScraper) (cancelled : list ctx_id)
    (ctx : ctx_id) (urls : list string) : error + World :=
  match rlm s with
  | None => inl RateLimiterNotSet
  | Some rl =>
      let n := Z.to_nat (maxWorkers s) in
      inr (MkWorld cancelled ctx (scrapeFunc s) rl
             (make (length urls)) (make (length urls))
             (SeedLoop urls) (replicate n WRange) n SupWait [] false false)
  end.

Inductive action : Type :=
| ACancel (c : ctx_id)          (* cancel() of a context *)
| ATicker (t : ticker_action)   (* the limiter's goroutine *)
| ASeedSend                     (* case urlChan <- url *)
| ASeedDone                     (* case <-ctx.Done(): return *)
| ASeedEnd                      (* the loop is over: return *)
| AWRecv (i : nat)              (* range urlChan: next url, or closed *)
| AWToken (i : nat)             (* case <-s.rlm.LimitCh(ctx) *)
| AWTokenDone (i : nat)         (* outer case <-ctx.Done(): return *)
| AWScrape (i : nat)            (* result := s.scrapeFunc(ctx, url) *)
| AWSend (i : nat)              (* case results <- result *)
| AWSendDone (i : nat)          (* inner case <-ctx.Done(): return *)
| ASupWait                      (* wg.Wait() returns *)
| ASupClose                     (* close(results) *)
| ASupStop                      (* s.rlm.Stop() returns *)
| ARead                         (* the caller reads one Result *)
| AReadClosed.                  (* the caller sees the channel closed *)

(** [wg.Done()] as a worker returns; a negative counter panics. *)
Definition worker_return (w : World) (i : nat) : World :=
  match wg w with
  | 0 => crash w
  | S n => with_wg (with_worker w i WReturned) n
  end.

Definition lift_chan {A : Type} (w : World) (o : outcome A) (k : A → World)
  : option World :=
  match o with
  | Ready a => Some (k a)
  | Blocked => None
  | Panic => Some (crash w)
  end.

Definition exec (a : action) (w : World) : option World :=
  if crashed w then None else
  let done := is_done (ctx w) (cancelled w) in
  match a with
  | ACancel c =>
      if is_done c (cancelled w) then None
      else if Nat.eqb c (ctx w) || Nat.eqb c (rl_ctx (limiter w))
           then Some (with_cancelled w (c :: cancelled w))
           else None
  | ATicker t =>
      lift_chan w (ticker_exec t (cancelled w) (limiter w)) (with_limiter w)
  | ASeedSend =>
      match seeder w with
      | SeedLoop (u :: rest) =>
          lift_chan w (send u (urlChan w))
            (fun ch => with_seeder (with_urlChan w ch) (SeedLoop rest))
      | _ => None
      end
  | ASeedDone =>
      match seeder w with
      | SeedLoop (u :: rest) =>
          if done
          then lift_chan w (close (urlChan w))
                 (fun ch => with_seeder (with_urlChan w ch) SeedReturned)
          else None
      | _ => None
      end
  | ASeedEnd =>
      match seeder w with
      | SeedLoop [] =>
          lift_chan w (close (urlChan w))
            (fun ch => with_seeder (with_urlChan w ch) SeedReturned)
      | _ => None
      end
  | AWRecv i =>
      match workers w !! i with
      | Some WRange =>
          match recv (urlChan w) with
          | Ready (Some u, ch) =>
              Some (with_worker (with_urlChan w ch) i (WSelectToken u))
          | Ready (None, _) => Some (worker_return w i)
          | _ => None
          end
      | _ => None
      end
  | AWToken i =>
      match workers w !! i with
      | Some (WSelectToken u) =>
          match take_token (limiter w) with
          | Some rl => Some (with_worker (with_limiter w rl) i (WScrape u))
          | None => None
          end
      | _ => None
      end
  | AWTokenDone i =>
      match workers w !! i with
      | Some (WSelectToken u) => if done then Some (worker_return w i) else None
      | _ => None
      end
  | AWScrape i =>
      match workers w !! i with
      | Some (WScrape u) => Some (with_worker w i (WSelectSend (work w done u)))
      | _ => None
      end
  | AWSend i =>
      match workers w !! i with
      | Some (WSelectSend r) =>
          lift_chan w (send r (results w))
            (fun ch => with_worker (with_results w ch) i WRange)
      | _ => None
      end
  | AWSendDone i =>
      match workers w !! i with
      | Some (WSelectSend r) => if done then Some (worker_return w i) else None
      | _ => None
      end
  | ASupWait =>
      match sup w, wg w with
      | SupWait, 0 => Some (with_sup w SupClose)
      | _, _ => None
      end
  | ASupClose =>
      match sup w with
      | SupClose => lift_chan w (close (results w))
                      (fun ch => with_sup (with_results w ch) SupStop)
      | _ => None
      end
  | ASupStop =>
      match sup w with
      | SupStop =>
          match Stop (limiter w) with
          | Some rl => Some (with_sup (with_limiter w rl) SupReturned)
          | None => None
          end
      | _ => None
      end
  | ARead =>
      match recv (results w) with
      | Ready (Some r, ch) =>
          if drained w then None
          else Some (with_received (with_results w ch) (received w ++ [r]))
      | _ => None
      end
  | AReadClosed =>
      match recv (results w) with
      | Ready (None, _) => if drained w then None else Some (with_drained w)
      | _ => None
      end
  end.

Fixpoint run (tr : list action) (w : World) : option World :=
  match tr with
  | [] => Some w
  | a :: tr' =>
      match exec a w with
      | Some w' => run tr' w'
      | None => None
      end
  end.

(** No goroutine can move and nothing can be cancelled any more. *)
Definition stuck (w : World) : Prop := ∀ a, exec a w = None.

(** The action is a cancellation. *)
Definition is_cancel (a : action) : bool :=
  match a with ACancel _ => true | _ => false end.

(** ** Where the items are *)

Definition seed_rest (p : seeder_pc) : list string :=
  match p with SeedLoop l => l | SeedReturned => [] end.

Definition w_urls (p : worker_pc) : list string :=
  match p with WSelectToken u | WScrape u => [u] | _ => [] end.

Definition w_results (p : worker_pc) : list Result :=
  match p with WSelectSend r => [r] | _ => [] end.

(** The URLs not yet scraped: still with the seeder, queued in [urlChan],
    or held by a worker before its [scrapeFunc] call. *)
Definition in_urls (w : World) : list string :=
  seed_rest (seeder w) ++ buf (urlChan w) ++ (workers w ≫= w_urls).

(** The Results produced: held by a worker before its send, queued in
    [results], or read by the caller. *)
Definition in_results (w : World) : list Result :=
  (workers w ≫= w_results) ++ buf (results w) ++ received w.

(** One for a worker that has not returned: what it still owes [wg]. *)
Definition live (p : worker_pc) : nat :=
  match p with WReturned => 0 | _ => 1 end.

(** ** A bound on the length of runs *)

Definition ticker_weight (p : ticker_pc) : nat :=
  match p with TStart => 3 | TSelect => 2 | TSend => 1 | TReturned => 0 end.

Definition seeder_weight (p : seeder_pc) : nat :=
  match p with SeedLoop l => 1 + 8 * length l | SeedReturned => 0 end.

Definition worker_weight (p : worker_pc) : nat :=
  match p with
  | WRange => 1
  | WSelectToken _ => 7
  | WScrape _ => 4
  | WSelectSend _ => 3
  | WReturned => 0
  end.

Definition sup_weight (p : sup_pc) : nat :=
  match p with SupWait => 3 | SupClose => 2 | SupStop => 1 | SupReturned => 0 end.

Definition flag_weight (b : bool) : nat := if b then 0 else 1.

Definition limiter_weight (rl : RateLimiter) : nat :=
  ticker_weight (pc rl) + 2 * (cap (limitCh rl) - length (buf (limitCh rl))).

(** Every action lowers [measure]: the number of actions left in any run. *)
Definition measure (w : World) : nat :=
  flag_weight (is_done (ctx w) (cancelled w))
  + flag_weight (is_done (rl_ctx (limiter w)) (cancelled w))
  + limiter_weight (limiter w)
  + seeder_weight (seeder w)
  + 7 * length (buf (urlChan w))
  + sum_list_with worker_weight (workers w)
  + length (buf (results w))
  + sup_weight (sup w)
  + flag_weight (drained w)
  + flag_weight (crashed w).

(** ** Invariants *)

(** The limiter as [NewRateLimiter] makes it and its goroutine keeps it. *)
Definition rl_ok (rl : RateLimiter) : Prop :=
  length (buf (limitCh rl)) ≤ cap (limitCh rl)
  ∧ Z.of_nat (cap (limitCh rl)) = intervals rl
  ∧ closed (limitCh rl) = false.

(** The arguments with which the goroutine gets past [time.NewTicker]. *)
Definition rl_good (rl : RateLimiter) : Prop :=
  rl_ok rl ∧ (0 < intervals rl)%Z ∧ (0 < Z.quot (timeSpan rl) (intervals rl))%Z.

Definition sup_closed (p : sup_pc) : bool :=
  match p with SupStop | SupReturned => true | _ => false end.

Definition seeder_returned (p : seeder_pc) : bool :=
  match p with SeedReturned => true | SeedLoop _ => false end.

(** What holds of every world a call of [ScrapeURLs] with [n] URLs can
    reach, cancelled or not. *)
Record wf (n : nat) (w : World) : Prop := MkWf {
  wf_crashed : crashed w = false;
  wf_limiter : rl_good (limiter w);
  wf_urlcap : cap (urlChan w) = n;
  wf_rescap : cap (results w) = n;
  wf_urlclosed : closed (urlChan w) = seeder_returned (seeder w);
  wf_resclosed : closed (results w) = sup_closed (sup w);
  wf_wg : wg w = sum_list_with live (workers w);
  wf_sup : sup w ≠ SupWait → wg w = 0;
  wf_drained : drained w = true → closed (results w) = true ∧ buf (results w) = [];
  wf_count : length (in_urls w) + length (in_results w) ≤ n
}.

(** What holds in addition while neither context is cancelled. *)
Record steady (f : ScrapeFunc) (urls : list string) (w : World) : Prop := MkSteady {
  st_wf : wf (length urls) w;
  st_work : work w = f;
  st_ctx : is_done (ctx w) (cancelled w) = false;
  st_rlctx : is_done (rl_ctx (limiter w)) (cancelled w) = false;
  st_ticker : pc (limiter w) = TReturned → sup w = SupReturned;
  st_workers : 0 < length (workers w);
  st_range :
    WReturned ∈ workers w → closed (urlChan w) = true ∧ buf (urlChan w) = [];
  st_items : (f false <$> in_urls w) ++ in_results w ≡ₚ f false <$> urls
}.

(** No goroutine can move (contexts may still be cancelled). *)
Definition quiescent (w : World) : Prop :=
  ∀ a, is_cancel a = false → exec a w = None.

(** ** A scheduler *)

(** The actions, cancellation apart, that can be enabled in [w]. *)
Definition candidates (w : World) : list action :=
  [ATicker TkNewTicker; ATicker TkTick; ATicker TkSend; ATicker TkCtxDone;
   ASeedSend; ASeedDone; ASeedEnd; ASupWait; ASupClose; ASupStop;
   ARead; AReadClosed]
  ++ (seq 0 (length (workers w)) ≫= λ i,
        [AWRecv i; AWToken i; AWTokenDone i; AWScrape i; AWSend i; AWSendDone i]).

Fixpoint first_enabled (l : list action) (w : World) : option (action * World) :=
  match l with
  | [] => None
  | a :: l' =>
      match exec a w with
      | Some w' => Some (a, w')
      | None => first_enabled l' w
      end
  end.

(** Run whatever can run, at most [fuel] actions, never cancelling. *)
Fixpoint schedule (fuel : nat) (w : World) : list action * World :=
  match fuel with
  | 0 => ([], w)
  | S k =>
      match first_enabled (candidates w) w with
      | None => ([], w)
      | Some (a, w') => let '(tr, w'') := schedule k w' in (a :: tr, w'')
      end
  end.

Definition no_cancel (tr : list action) : bool :=
  forallb (λ a, negb (is_cancel a)) tr.

(** The token source a run can rely on: made with arguments its goroutine
    accepts, that goroutine not returned, its context not cancelled. *)
Definition limiter_running (cancelled : list ctx_id) (rl : RateLimiter) : Prop :=
  rl_good rl ∧ pc rl ≠ TReturned ∧ is_done (rl_ctx rl) cancelled = false.

(** ** Counting tokens *)

(** The sends [limitCh <- struct{}{}] in a trace. *)
Definition tokens_sent (tr : list rl_action) : nat :=
  length (filter (λ a, a = RTicker TkSend) tr).

(** The calls of [Wait] that returned true to a goroutine. *)
Definition wins (c : caller) : nat :=
  length (filter (λ r, r = RetWait true) (log c)).

Definition acquired (cs : list caller) : nat := sum_list_with wins cs.

Definition tokens (rl : RateLimiter) : nat := length (buf (limitCh rl)).

(** The state of the one goroutine that calls [Stop] twice. *)
Definition stop_twice_inv (w : RLWorld) : Prop :=
  rw_crashed w = false ∧ rl_good (rw_limiter w)
  ∧ (rw_callers w = [MkCaller [CallStop; CallStop] []]
     ∨ (rw_callers w = [MkCaller [CallStop] [RetStop]]
        ∧ pc (rw_limiter w) = TReturned)).

(** ** Where the Results come from *)

(** [r] is what [f] returned for one of the URLs. *)
Definition from_work (f : ScrapeFunc) (urls : list string) (r : Result) : Prop :=
  ∃ b u, u ∈ urls ∧ r = f b u.

(** Every URL in flight was submitted and every Result in flight was
    returned by the scrape function for a submitted URL; there are never
    more of them than URLs submitted.  This holds with or without
    cancellation and whatever the limiter does. *)
Record traced (f : ScrapeFunc) (urls : list string) (w : World) : Prop := MkTraced {
  tr_work : work w = f;
  tr_urls : Forall (λ u, u ∈ urls) (in_urls w);
  tr_results : Forall (from_work f urls) (in_results w);
  tr_count : length (in_urls w) + length (in_results w) ≤ length urls
}.

(** ** Counting what the closing goroutine does *)

#[global] Instance action_eq_dec : EqDecision action.
Proof. solve_decision. Defined.

(** The executions of [close(results)] in a trace, and the returns of
    [s.rlm.Stop()]. *)
Definition closes (tr : list action) : nat :=
  length (filter (λ a, a = ASupClose) tr).

Definition stops (tr : list action) : nat :=
  length (filter (λ a, a = ASupStop) tr).

(** One while [close(results)] is still to come. *)
Definition close_weight (p : sup_pc) : nat :=
  match p with SupWait | SupClose => 1 | _ => 0 end.

(** ** Concrete configurations *)

(** A network on which every URL is well formed and answers 200, unless
    the request's context is done: then [client.Do] gives the context's
    error, as [net/http] documents. *)
Definition net_ok : HTTPClient :=
  MkHTTPClient (λ _, None) (λ done _, if done then inl ContextCanceled else inr 200).

Definition second : Z := 1000000000.

(** [NewScraper(5, workers)] followed by [SetRateLimit(ctx 0, timeSpan,
    intervals)]. *)
Definition configured (workers : Z) (timeSpan intervals : Z)
  : option RateLimitedScraper :=
  SetRateLimit 0 timeSpan intervals (NewScraper net_ok 5 workers).

(** The world [ScrapeURLs(ctx 0, urls)] starts on such a scraper. *)
Definition started (workers : Z) (timeSpan intervals : Z) (urls : list string)
  : option World :=
  match configured workers timeSpan intervals with
  | Some s =>
      match ScrapeURLs s [] 0 urls with
      | inr w => Some w
      | inl _ => None
      end
  | None => None
  end.

(** One URL, one worker, one token per second; the fetch lasts two ticks,
    and nothing is cancelled. *)
Definition slow_fetch_trace : list action :=
  [ATicker TkNewTicker; ATicker TkTick; ATicker TkSend;
   ASeedSend; ASeedEnd; AWRecv 0; AWToken 0;
   ATicker TkTick; ATicker TkSend; ATicker TkTick;
   AWScrape 0; AWSend 0; AWRecv 0;
   ASupWait; ASupClose; ARead; AReadClosed].

(** Two URLs, one worker; the context is cancelled while the worker waits
    for the token of the second URL. *)
Definition cancelled_trace : list action :=
  [ATicker TkNewTicker; ASeedSend; ASeedSend; ASeedEnd;
   ATicker TkTick; ATicker TkSend;
   AWRecv 0; AWToken 0; AWScrape 0; AWSend 0; ARead; AWRecv 0;
   ACancel 0; ATicker TkCtxDone; AWTokenDone 0;
   ASupWait; ASupClose; AReadClosed].

(** One URL, one worker; the context is cancelled during the fetch, and
    the worker's second [select] takes the send. *)
Definition cancel_during_fetch_trace : list action :=
  [ATicker TkNewTicker; ATicker TkTick; ATicker TkSend;
   ASeedSend; ASeedEnd; AWRecv 0; AWToken 0;
   ACancel 0; AWScrape 0; AWSend 0; ARead].

(** No Result the caller can ever receive carries the cancellation. *)
Definition never_delivers_cancellation (w0 : World) : Prop :=
  ∀ tr w, run tr w0 = Some w →
    Forall (λ r, Error r ≠ Some ContextCanceled) (received w).


(** ** Further definitions *)

(** One while the return of [s.rlm.Stop()] is still to come. *)
Definition stop_weight (p : sup_pc) : nat :=
  match p with SupReturned => 0 | _ => 1 end.

(** The Result of one call [f(ctx, url)], [ctx] done or not. *)
Definition scraped (f : ScrapeFunc) (p : bool * string) : Result := f p.1 p.2.

(** The Results in flight come from calls on URLs that, with the URLs
    still in flight, make up part of the URLs submitted. *)
Definition once (f : ScrapeFunc) (urls : list string) (w : World) : Prop :=
  work w = f
  ∧ ∃ ps, in_results w ⊆+ scraped f <$> ps ∧ in_urls w ++ ps.*2 ⊆+ urls.

(** How many actions of a run satisfy [p]. *)
Definition count_of (p : action → bool) (tr : list action) : nat :=
  sum_list_with (λ a, if p a then 1 else 0) tr.

(** A worker calls [s.scrapeFunc]. *)
Definition is_scrape (a : action) : bool :=
  match a with AWScrape _ => true | _ => false end.

(** A worker receives from [s.rlm.LimitCh(ctx)]. *)
Definition is_token (a : action) : bool :=
  match a with AWToken _ => true | _ => false end.

(** The limiter's goroutine completes [limitCh <- struct{}{}]. *)
Definition is_token_send (a : action) : bool :=
  match a with ATicker TkSend => true | _ => false end.

(** One for a worker that holds a token and has not called yet. *)
Definition scraping (p : worker_pc) : nat :=
  match p with WScrape _ => 1 | _ => 0 end.

(** What the caller has and will receive, front to back, when nothing is
    cancelled: the Results read, those queued, the one a worker holds,
    and the Results of the URLs not yet scraped. *)
Definition pipeline (f : ScrapeFunc) (w : World) : list Result :=
  received w ++ buf (results w) ++ (workers w ≫= w_results)
  ++ (f false <$> ((workers w ≫= w_urls) ++ buf (urlChan w) ++ seed_rest (seeder w))).

(** Some caller's [Stop] has returned. *)
Definition Stop_returned (cs : list caller) : Prop :=
  Exists (λ cl, RetStop ∈ log cl) cs.

(** A [Wait] takes a token. *)
Definition is_token_wait (a : rl_action) : bool :=
  match a with RWait _ CaseToken => true | _ => false end.

(** The limiter's goroutine moves, or a [Stop] returns. *)
Definition is_limiter_move (a : rl_action) : bool :=
  match a with RTicker _ | RStop _ => true | _ => false end.

(** The limiter's goroutine is in [limitCh <- struct{}{}] and the channel
    is full. *)
Definition blocked_full (rl : RateLimiter) : Prop :=
  pc rl = TSend ∧ tokens rl = cap (limitCh rl) ∧ closed (limitCh rl) = false.

(** The limiter [NewRateLimiter(ctx 0, time.Second, 5)] returns, and a
    scraper with one worker that has it. *)
Definition limiter5 : RateLimiter := MkRateLimiter (make 5) 0 second 5 TStart.

Definition scraper1 : RateLimitedScraper :=
  MkScraper net_ok (Some limiter5) 1 (scrapeURL net_ok).

(** The world [ScrapeURLs(ctx 0, ["a"; "b"])] starts on [scraper1]. *)
Definition world_ab : World :=
  MkWorld [] 0 (scrapeURL net_ok) limiter5 (make 2) (make 2)
    (SeedLoop ["a"; "b"]%string) [WRange] 1 SupWait [] false false.

(** What holds of a call on a limiter whose goroutine has returned, with
    [k] tokens left in the channel, while the context of the call is not
    cancelled: nothing is lost, every Result has used up a token, and the
    closing goroutine is still in [wg.Wait()]. *)
Record starved (urls : list string) (k : nat) (w : World) : Prop := MkStarved {
  sv_wf : wf (length urls) w;
  sv_pc : pc (limiter w) = TReturned;
  sv_workers : 0 < length (workers w);
  sv_range :
    WReturned ∈ workers w → closed (urlChan w) = true ∧ buf (urlChan w) = [];
  sv_items : length (in_urls w) + length (in_results w) = length urls;
  sv_tokens :
    length (in_results w) + sum_list_with scraping (workers w) + tokens (limiter w)
    = k;
  sv_sup : sup w = SupWait
}.

(** A limiter made on context 0, with one token left, whose goroutine
    has returned; and the world [ScrapeURLs(ctx 1, ["a"; "b"])] starts on
    a scraper with one worker that has it, context 0 being cancelled. *)
Definition limiter_stopped : RateLimiter :=
  MkRateLimiter (Chan [tt] 5 false) 0 second 5 TReturned.

Definition world_stopped : World :=
  MkWorld [0] 1 (scrapeURL net_ok) limiter_stopped (make 2) (make 2)
    (SeedLoop ["a"; "b"]%string) [WRange] 1 SupWait [] false false.

(** The world [ScrapeURLs(ctx 0, ["a"])] starts on [scraper1]. *)
Definition world_a : World :=
  MkWorld [] 0 (scrapeURL net_ok) limiter5 (make 1) (make 1)
    (SeedLoop ["a"%string]) [WRange] 1 SupWait [] false false.


(** * Proofs *)

(** The fields of [wf], the two implications named. *)
Ltac wf_open H := destruct H as [? ? ? ? ? ? ? Hwsup Hwdr ?].

(** ** Channels *)

Lemma send_Ready {A} (x : A) c c' :
  send x c = Ready c' →
  closed c = false ∧ length (buf c) < cap c ∧ c' = Chan (buf c ++ [x]) (cap c) false.
Proof.
  unfold send. destruct (closed c) eqn:Hc; [done|].
  destruct (Nat.ltb_spec (length (buf c)) (cap c)); [|done].
  intros [= <-]. auto.
Qed.

Lemma send_room {A} (x : A) c :
  closed c = false → length (buf c) < cap c →
  send x c = Ready (Chan (buf c ++ [x]) (cap c) false).
Proof.
  intros Hc Hlt. unfold send. rewrite Hc.
  destruct (Nat.ltb_spec (length (buf c)) (cap c)); [done|lia].
Qed.

Lemma send_Panic {A} (x : A) c : send x c = Panic → closed c = true.
Proof. unfold send. destruct (closed c); [done|]. by case_match. Qed.

Lemma close_Ready {A} (c c' : chan A) :
  close c = Ready c' → closed c = false ∧ c' = Chan (buf c) (cap c) true.
Proof. unfold close. destruct (closed c); [done|]. intros [= <-]. auto. Qed.

Lemma close_Panic {A} (c : chan A) : close c = Panic → closed c = true.
Proof. unfold close. by destruct (closed c). Qed.

Lemma recv_Some {A} (c c' : chan A) x :
  recv c = Ready (Some x, c') →
  buf c = x :: buf c' ∧ cap c' = cap c ∧ closed c' = closed c.
Proof.
  unfold recv. destruct (buf c) as [|y l] eqn:Hb.
  - by destruct (closed c).
  - intros [= -> <-]. auto.
Qed.

Lemma recv_None {A} (c c' : chan A) :
  recv c = Ready (None, c') → buf c = [] ∧ closed c = true ∧ c' = c.
Proof.
  unfold recv. destruct (buf c) as [|y l] eqn:Hb; [|done].
  destruct (closed c); [|done]. intros [= <-]. auto.
Qed.

Lemma recv_Blocked {A} (c : chan A) :
  recv c = Blocked ↔ buf c = [] ∧ closed c = false.
Proof.
  unfold recv. destruct (buf c); destruct (closed c); split; (done || by intros [? ?]).
Qed.

Lemma recv_not_Panic {A} (c : chan A) : recv c ≠ Panic.
Proof. unfold recv. by destruct (buf c), (closed c). Qed.

(** ** One goroutine among many *)

(** Replacing the state of goroutine [i] is, up to order, replacing the
    head of a list. *)
Lemma insert_split {A} (l : list A) i x y :
  l !! i = Some x → ∃ rest, l ≡ₚ x :: rest ∧ <[i := y]> l ≡ₚ y :: rest.
Proof.
  revert i. induction l as [|z l IH]; intros [|i] Hi; simplify_eq/=.
  - by exists l.
  - destruct (IH i Hi) as (rest & H1 & H2). exists (z :: rest). split.
    + rewrite H1. apply Permutation_swap.
    + rewrite H2. apply Permutation_swap.
Qed.

(** A worker's [<-s.rlm.LimitCh(ctx)] is the receive [take_token] does. *)
Lemma LimitCh_recv ctx rl : recv (LimitCh ctx rl) = recv (limitCh rl).
Proof. done. Qed.

Lemma sum_insert {A} (f : A → nat) (l : list A) i x y :
  l !! i = Some x →
  sum_list_with f (<[i := y]> l) + f x = sum_list_with f l + f y.
Proof.
  intros Hi. destruct (insert_split l i x y Hi) as (rest & H1 & H2).
  rewrite H2, H1. simpl. lia.
Qed.

(** ** Runs are finite *)

Lemma ticker_exec_measure t c rl rl' :
  ticker_exec t c rl = Ready rl' →
  rl_ctx rl' = rl_ctx rl ∧ limiter_weight rl' < limiter_weight rl.
Proof.
  unfold ticker_exec, limiter_weight.
  destruct t, (pc rl) eqn:Hpc; try done.
  - destruct (tick_period _ _); [|done]. case_match; [done|].
    intros [= <-]. simpl. lia.
  - intros [= <-]. simpl. lia.
  - destruct (send tt (limitCh rl)) eqn:Hs; try done.
    apply send_Ready in Hs as (? & ? & ->). intros [= <-]. simpl.
    rewrite length_app. simpl. lia.
  - case_match; [|done]. intros [= <-]. simpl. lia.
Qed.

Lemma take_token_measure rl rl' :
  take_token rl = Some rl' →
  rl_ctx rl' = rl_ctx rl ∧ limiter_weight rl' ≤ limiter_weight rl + 2.
Proof.
  unfold take_token, limiter_weight.
  destruct (recv (limitCh rl)) as [[[x|] ch]| |] eqn:Hr; try done; intros [= <-]; simpl.
  - apply recv_Some in Hr as (Hb & Hc & _). rewrite Hb, Hc. simpl. lia.
  - apply recv_None in Hr as (_ & _ & ->). lia.
Qed.

Lemma Stop_measure rl rl' :
  Stop rl = Some rl' →
  rl_ctx rl' = rl_ctx rl ∧ limiter_weight rl' < limiter_weight rl.
Proof.
  unfold Stop, limiter_weight. destruct (pc rl) eqn:Hpc; try done.
  intros [= <-]. simpl. lia.
Qed.

Lemma crash_measure w : crashed w = false → measure (crash w) < measure w.
Proof. intros H. unfold measure. simpl. rewrite H. simpl. lia. Qed.

Lemma worker_return_measure w i p :
  crashed w = false → workers w !! i = Some p → 0 < worker_weight p →
  measure (worker_return w i) < measure w.
Proof.
  intros Hcr Hi Hp. unfold worker_return. destruct (wg w).
  - by apply crash_measure.
  - unfold measure. simpl.
    pose proof (sum_insert worker_weight _ _ _ WReturned Hi). simpl in *. lia.
Qed.

Lemma exec_measure a w w' : exec a w = Some w' → measure w' < measure w.
Proof.
  unfold exec. destruct (crashed w) eqn:Hcr; [done|].
  destruct a.
  - (* cancel *)
    destruct (is_done c (cancelled w)) eqn:Hc; [done|].
    destruct (_ || _) eqn:Hor; [|done]. intros [= <-].
    unfold measure. simpl. rewrite Hcr.
    apply orb_true_iff in Hor as [->%Nat.eqb_eq| ->%Nat.eqb_eq].
    + rewrite Hc, Nat.eqb_refl. simpl.
      destruct (is_done (rl_ctx _) _), (Nat.eqb _ _); simpl; lia.
    + rewrite Hc, Nat.eqb_refl. simpl.
      destruct (is_done (ctx _) _), (Nat.eqb _ _); simpl; lia.
  - destruct (ticker_exec _ _ _) eqn:Ht; simpl; try done; intros [= <-].
    + apply ticker_exec_measure in Ht as [Hc Ht]. unfold measure. simpl. rewrite Hc. lia.
    + by apply crash_measure.
  - destruct (seeder w) as [[|u rest]|] eqn:Hs; try done.
    destruct (send u (urlChan w)) eqn:Hsend; simpl; try done; intros [= <-].
    + apply send_Ready in Hsend as (_ & _ & ->). unfold measure. simpl.
      rewrite Hs, length_app. simpl. lia.
    + by apply crash_measure.
  - destruct (seeder w) as [[|u rest]|] eqn:Hs; try done.
    case_match; [|done].
    destruct (close (urlChan w)) eqn:Hcl; simpl; try done; intros [= <-].
    + apply close_Ready in Hcl as (_ & ->). unfold measure. simpl.
      rewrite Hs. simpl. lia.
    + by apply crash_measure.
  - destruct (seeder w) as [[|u rest]|] eqn:Hs; try done.
    destruct (close (urlChan w)) eqn:Hcl; simpl; try done; intros [= <-].
    + apply close_Ready in Hcl as (_ & ->). unfold measure. simpl.
      rewrite Hs. simpl. lia.
    + by apply crash_measure.
  - destruct (workers w !! i) as [[]|] eqn:Hi; try done.
    destruct (recv (urlChan w)) as [[[u|] ch]| |] eqn:Hr; try done; intros [= <-].
    + apply recv_Some in Hr as (Hb & _ & _). unfold measure. simpl.
      pose proof (sum_insert worker_weight _ _ _ (WSelectToken u) Hi).
      rewrite Hb. simpl in *. lia.
    + eapply worker_return_measure; [done|exact Hi|simpl; lia].
  - destruct (workers w !! i) as [[]|] eqn:Hi; try done.
    destruct (take_token (limiter w)) eqn:Ht; [|done]. intros [= <-].
    apply take_token_measure in Ht as [Hc Ht]. unfold measure. simpl.
    pose proof (sum_insert worker_weight _ _ _ (WScrape url) Hi).
    rewrite Hc. simpl in *. lia.
  - destruct (workers w !! i) as [[]|] eqn:Hi; try done.
    case_match; [|done]. intros [= <-].
    eapply worker_return_measure; [done|exact Hi|simpl; lia].
  - destruct (workers w !! i) as [[]|] eqn:Hi; try done. intros [= <-].
    unfold measure. simpl.
    pose proof (sum_insert worker_weight _ _ _
      (WSelectSend (work w (is_done (ctx w) (cancelled w)) url)) Hi).
    simpl in *. lia.
  - destruct (workers w !! i) as [[]|] eqn:Hi; try done.
    destruct (send r (results w)) eqn:Hsend; simpl; try done; intros [= <-].
    + apply send_Ready in Hsend as (_ & _ & ->). unfold measure. simpl.
      pose proof (sum_insert worker_weight _ _ _ WRange Hi).
      rewrite length_app. simpl in *. lia.
    + by apply crash_measure.
  - destruct (workers w !! i) as [[]|] eqn:Hi; try done.
    case_match; [|done]. intros [= <-].
    eapply worker_return_measure; [done|exact Hi|simpl; lia].
  - destruct (sup w) eqn:Hs, (wg w); try done. intros [= <-].
    unfold measure. simpl. rewrite Hs. simpl. lia.
  - destruct (sup w) eqn:Hs; try done.
    destruct (close (results w)) eqn:Hcl; simpl; try done; intros [= <-].
    + apply close_Ready in Hcl as (_ & ->). unfold measure. simpl.
      rewrite Hs. simpl. lia.
    + by apply crash_measure.
  - destruct (sup w) eqn:Hs; try done.
    destruct (Stop (limiter w)) eqn:Hst; [|done]. intros [= <-].
    apply Stop_measure in Hst as [Hc Hst]. unfold measure. simpl.
    rewrite Hs, Hc. simpl. lia.
  - destruct (recv (results w)) as [[[r|] ch]| |] eqn:Hr; try done.
    destruct (drained w) eqn:Hd; [done|]. intros [= <-].
    apply recv_Some in Hr as (Hb & _ & _). unfold measure. simpl.
    rewrite Hb. simpl. lia.
  - destruct (recv (results w)) as [[[r|] ch]| |] eqn:Hr; try done.
    destruct (drained w) eqn:Hd; [done|]. intros [= <-].
    unfold measure. simpl. rewrite Hd. simpl. lia.
Qed.

Lemma run_app tr1 tr2 w :
  run (tr1 ++ tr2) w = run tr1 w ≫= run tr2.
Proof.
  revert w. induction tr1 as [|a tr1 IH]; intros w; simpl; [done|].
  destruct (exec a w); simpl; [apply IH|done].
Qed.

(** No run is longer than the measure of the world it starts in. *)
Lemma run_measure tr w w' :
  run tr w = Some w' → length tr + measure w' ≤ measure w.
Proof.
  revert w. induction tr as [|a tr IH]; intros w; simpl.
  - intros [= ->]. lia.
  - destruct (exec a w) as [w1|] eqn:Ha; [|done]. intros Hr.
    apply exec_measure in Ha. apply IH in Hr. lia.
Qed.

(** ** Worlds a call can reach *)

Lemma bind_insert_length {A B} (f : A → list B) (l : list A) i x y :
  l !! i = Some x →
  length (<[i := y]> l ≫= f) + length (f x) = length (l ≫= f) + length (f y).
Proof.
  intros Hi. destruct (insert_split l i x y Hi) as (rest & H1 & H2).
  rewrite H2, H1. rewrite !bind_cons, !length_app. lia.
Qed.

(** *** The limiter's own invariant *)

Lemma NewRateLimiter_ok c ts iv rl :
  NewRateLimiter c ts iv = Some rl →
  rl_ok rl ∧ pc rl = TStart ∧ rl_ctx rl = c ∧ timeSpan rl = ts ∧ intervals rl = iv
  ∧ buf (limitCh rl) = [].
Proof.
  unfold NewRateLimiter. destruct (Z.ltb_spec iv 0); [done|]. intros [= <-].
  unfold rl_ok. simpl. split_and!; try done; lia.
Qed.

Lemma ticker_exec_ok t c rl rl' :
  rl_ok rl → ticker_exec t c rl = Ready rl' →
  rl_ok rl' ∧ rl_ctx rl' = rl_ctx rl ∧ timeSpan rl' = timeSpan rl
  ∧ intervals rl' = intervals rl.
Proof.
  intros (Hlen & Hcap & Hcl). unfold ticker_exec, rl_ok.
  destruct t, (pc rl) eqn:Hpc; try done.
  - destruct (tick_period _ _); [|done]. case_match; [done|]. by intros [= <-].
  - by intros [= <-].
  - destruct (send tt (limitCh rl)) eqn:Hs; try done.
    apply send_Ready in Hs as (? & ? & ->). intros [= <-]. simpl.
    rewrite length_app. simpl. split_and!; try done; lia.
  - case_match; [|done]. by intros [= <-].
Qed.

Lemma ticker_exec_no_panic t c rl : rl_good rl → ticker_exec t c rl ≠ Panic.
Proof.
  intros ((Hlen & Hcap & Hcl) & Hiv & Hq). unfold ticker_exec.
  destruct t, (pc rl) eqn:Hpc; try done.
  - unfold tick_period. destruct (Z.eqb_spec (intervals rl) 0); [lia|].
    destruct (Z.leb_spec (timeSpan rl ÷ intervals rl) 0); [lia|done].
  - destruct (send tt (limitCh rl)) eqn:Hs; try done.
    apply send_Panic in Hs. congruence.
  - by case_match.
Qed.

Lemma take_token_ok rl rl' :
  rl_ok rl → take_token rl = Some rl' →
  rl_ok rl' ∧ rl_ctx rl' = rl_ctx rl ∧ timeSpan rl' = timeSpan rl
  ∧ intervals rl' = intervals rl ∧ pc rl' = pc rl
  ∧ length (buf (limitCh rl)) = S (length (buf (limitCh rl'))).
Proof.
  intros (Hlen & Hcap & Hcl). unfold take_token, rl_ok.
  destruct (recv (limitCh rl)) as [[[x|] ch]| |] eqn:Hr; try done; intros [= <-]; simpl.
  - apply recv_Some in Hr as (Hb & Hc & Hd). rewrite Hb in *. simpl in *.
    split_and!; try done; try congruence; lia.
  - apply recv_None in Hr as (_ & ? & _). congruence.
Qed.

Lemma Stop_ok rl rl' :
  rl_ok rl → Stop rl = Some rl' →
  rl_ok rl' ∧ rl_ctx rl' = rl_ctx rl ∧ timeSpan rl' = timeSpan rl
  ∧ intervals rl' = intervals rl ∧ pc rl = TSelect ∧ pc rl' = TReturned.
Proof.
  intros Hok. unfold Stop. destruct (pc rl) eqn:Hpc; try done. by intros [= <-].
Qed.

Lemma rl_good_step rl rl' :
  rl_good rl → rl_ok rl' →
  timeSpan rl' = timeSpan rl → intervals rl' = intervals rl →
  rl_good rl'.
Proof. intros (? & ? & ?) ? Ht Hi. unfold rl_good. by rewrite Ht, Hi. Qed.

Lemma worker_live_wg n w i p :
  wf n w → workers w !! i = Some p → live p = 1 →
  ∃ k, wg w = S k ∧ sup w = SupWait ∧ closed (results w) = false.
Proof.
  intros Hwf Hi Hp.
  destruct (insert_split _ _ _ WReturned Hi) as (rest & H1 & _).
  pose proof (wf_wg _ _ Hwf) as Hwg. rewrite H1 in Hwg. simpl in Hwg. rewrite Hp in Hwg.
  destruct (wg w) as [|k] eqn:Hk; [done|]. exists k.
  assert (sup w = SupWait) as Hs.
  { destruct (sup w) eqn:Hs; try done;
      pose proof (wf_sup _ _ Hwf ltac:(by rewrite Hs)); congruence. }
  split_and!; try done. by rewrite (wf_resclosed _ _ Hwf), Hs.
Qed.

Lemma worker_return_wf n w i p :
  wf n w → workers w !! i = Some p → live p = 1 →
  wf n (worker_return w i).
Proof.
  intros Hwf Hi Hp. destruct (worker_live_wg _ _ _ _ Hwf Hi Hp) as (k & Hk & Hs & _).
  unfold worker_return. rewrite Hk. wf_open Hwf.
  pose proof (sum_insert live _ _ _ WReturned Hi).
  pose proof (bind_insert_length w_urls _ _ _ WReturned Hi).
  pose proof (bind_insert_length w_results _ _ _ WReturned Hi).
  constructor; simpl; try done.
  - simpl in *. lia.
  - unfold in_urls, in_results in *. simpl in *. rewrite !length_app in *. lia.
Qed.

Ltac count_tac :=
  unfold in_urls, in_results in *; simpl in *;
  repeat match goal with
  | H : seeder _ = _ |- _ => rewrite ?H in *; clear H
  | H : buf _ = _ :: _ |- _ => rewrite ?H in *; clear H
  end;
  rewrite ?length_app in *; simpl in *; lia.

Lemma exec_wf n a w w' : wf n w → exec a w = Some w' → wf n w'.
Proof.
  intros Hwf. unfold exec. rewrite (wf_crashed _ _ Hwf).
  destruct a.
  - (* cancel *)
    destruct (is_done c (cancelled w)); [done|].
    destruct (_ || _); [|done]. intros [= <-]. by destruct Hwf.
  - (* the limiter's goroutine *)
    destruct (ticker_exec _ _ _) eqn:Ht; simpl; try done.
    + intros [= <-].
      apply ticker_exec_ok in Ht as (? & ? & ? & ?); [|apply Hwf].
      wf_open Hwf. constructor; simpl; try done. by eapply rl_good_step.
    + by apply ticker_exec_no_panic in Ht; [|apply Hwf].
  - (* seeder: send *)
    destruct (seeder w) as [[|u rest]|] eqn:Hs; try done.
    destruct (send u (urlChan w)) eqn:Hsend; simpl; try done.
    + intros [= <-]. apply send_Ready in Hsend as (Hc & _ & ->).
      wf_open Hwf. rewrite Hs in *. constructor; simpl; try done. count_tac.
    + apply send_Panic in Hsend. rewrite (wf_urlclosed _ _ Hwf), Hs in Hsend. done.
  - (* seeder: cancelled *)
    destruct (seeder w) as [[|u rest]|] eqn:Hs; try done.
    case_match; [|done].
    destruct (close (urlChan w)) eqn:Hcl; simpl; try done.
    + intros [= <-]. apply close_Ready in Hcl as (_ & ->).
      wf_open Hwf. rewrite Hs in *. constructor; simpl; try done. count_tac.
    + apply close_Panic in Hcl. rewrite (wf_urlclosed _ _ Hwf), Hs in Hcl. done.
  - (* seeder: end of loop *)
    destruct (seeder w) as [[|u rest]|] eqn:Hs; try done.
    destruct (close (urlChan w)) eqn:Hcl; simpl; try done.
    + intros [= <-]. apply close_Ready in Hcl as (_ & ->).
      wf_open Hwf. rewrite Hs in *. constructor; simpl; try done. count_tac.
    + apply close_Panic in Hcl. rewrite (wf_urlclosed _ _ Hwf), Hs in Hcl. done.
  - (* worker: range *)
    destruct (workers w !! i) as [[]|] eqn:Hi; try done.
    destruct (recv (urlChan w)) as [[[u|] ch]| |] eqn:Hr; try done; intros [= <-].
    + apply recv_Some in Hr as (Hb & Hcap & Hcl).
      pose proof (sum_insert live _ _ _ (WSelectToken u) Hi).
      pose proof (bind_insert_length w_urls _ _ _ (WSelectToken u) Hi).
      pose proof (bind_insert_length w_results _ _ _ (WSelectToken u) Hi).
      wf_open Hwf. constructor; simpl; try done; try congruence.
      * simpl in *. lia.
      * count_tac.
    + by eapply worker_return_wf.
  - (* worker: token *)
    destruct (workers w !! i) as [[]|] eqn:Hi; try done.
    destruct (take_token (limiter w)) eqn:Ht; [|done]. intros [= <-].
    apply take_token_ok in Ht as (? & ? & ? & ? & ? & ?); [|apply Hwf].
    pose proof (sum_insert live _ _ _ (WScrape url) Hi).
    pose proof (bind_insert_length w_urls _ _ _ (WScrape url) Hi).
    pose proof (bind_insert_length w_results _ _ _ (WScrape url) Hi).
    wf_open Hwf. constructor; simpl; try done.
    + by eapply rl_good_step.
    + simpl in *. lia.
    + count_tac.
  - (* worker: cancelled before the token *)
    destruct (workers w !! i) as [[]|] eqn:Hi; try done.
    case_match; [|done]. intros [= <-]. by eapply worker_return_wf.
  - (* worker: scrapeFunc *)
    destruct (workers w !! i) as [[]|] eqn:Hi; try done. intros [= <-].
    set (r := work w _ url).
    pose proof (sum_insert live _ _ _ (WSelectSend r) Hi).
    pose proof (bind_insert_length w_urls _ _ _ (WSelectSend r) Hi).
    pose proof (bind_insert_length w_results _ _ _ (WSelectSend r) Hi).
    wf_open Hwf. constructor; simpl; try done.
    + simpl in *. lia.
    + count_tac.
  - (* worker: send *)
    destruct (workers w !! i) as [[]|] eqn:Hi; try done.
    destruct (worker_live_wg _ _ _ _ Hwf Hi eq_refl) as (k & Hk & Hsup & Hcl).
    destruct (send r (results w)) eqn:Hsend; simpl; try done.
    + intros [= <-]. apply send_Ready in Hsend as (_ & _ & ->).
      pose proof (sum_insert live _ _ _ WRange Hi).
      pose proof (bind_insert_length w_urls _ _ _ WRange Hi).
      pose proof (bind_insert_length w_results _ _ _ WRange Hi).
      wf_open Hwf. constructor; simpl; try done.
      * by rewrite Hsup.
      * simpl in *. lia.
      * intros Hd. destruct (Hwdr Hd). congruence.
      * count_tac.
    + apply send_Panic in Hsend. congruence.
  - (* worker: cancelled before the send *)
    destruct (workers w !! i) as [[]|] eqn:Hi; try done.
    case_match; [|done]. intros [= <-]. by eapply worker_return_wf.
  - (* wg.Wait *)
    destruct (sup w) eqn:Hs, (wg w) eqn:Hw; try done. intros [= <-].
    wf_open Hwf. rewrite Hs in *. constructor; simpl; try done.
  - (* close(results) *)
    destruct (sup w) eqn:Hs; try done.
    destruct (close (results w)) eqn:Hcl; simpl; try done.
    + intros [= <-]. apply close_Ready in Hcl as (Hc & ->).
      wf_open Hwf. rewrite Hs in *. constructor; simpl; try done.
      * intros _. by apply Hwsup.
      * intros Hd. destruct (Hwdr Hd). congruence.
    + apply close_Panic in Hcl. rewrite (wf_resclosed _ _ Hwf), Hs in Hcl. done.
  - (* Stop *)
    destruct (sup w) eqn:Hs; try done.
    destruct (Stop (limiter w)) eqn:Hst; [|done]. intros [= <-].
    apply Stop_ok in Hst as (? & ? & ? & ? & ? & ?); [|apply Hwf].
    wf_open Hwf. rewrite Hs in *. constructor; simpl; try done.
    + by eapply rl_good_step.
    + intros _. by apply Hwsup.
  - (* the caller reads *)
    destruct (recv (results w)) as [[[r|] ch]| |] eqn:Hr; try done.
    destruct (drained w) eqn:Hd; [done|]. intros [= <-].
    apply recv_Some in Hr as (Hb & Hcap & Hcl).
    wf_open Hwf. constructor; simpl; try done; try congruence.
    count_tac.
  - (* the caller sees the end *)
    destruct (recv (results w)) as [[[r|] ch]| |] eqn:Hr; try done.
    destruct (drained w) eqn:Hd; [done|]. intros [= <-].
    apply recv_None in Hr as (Hb & Hcl & _).
    by destruct Hwf.
Qed.

Lemma run_wf n tr w w' : wf n w → run tr w = Some w' → wf n w'.
Proof.
  revert w. induction tr as [|a tr IH]; intros w Hwf; simpl.
  - by intros [= <-].
  - destruct (exec a w) as [w1|] eqn:Ha; [|done]. apply IH. by eapply exec_wf.
Qed.

Lemma ScrapeURLs_wf s c ctx urls w :
  (∀ rl, rlm s = Some rl → rl_good rl) →
  ScrapeURLs s c ctx urls = inr w → wf (length urls) w.
Proof.
  intros Hgood. unfold ScrapeURLs. destruct (rlm s) as [rl|] eqn:Hrl; [|done].
  intros [= <-]. constructor; simpl; try done.
  - by apply Hgood.
  - induction (Z.to_nat (maxWorkers s)); simpl; by f_equal.
  - unfold in_urls, in_results. simpl.
    assert (∀ k, replicate k WRange ≫= w_urls = []) as ->.
    { induction k; csimpl; by rewrite ?bind_cons. }
    assert (∀ k, replicate k WRange ≫= w_results = []) as ->.
    { induction k; csimpl; by rewrite ?bind_cons. }
    simpl. rewrite app_nil_r. lia.
Qed.

(** ** Runs without cancellation *)

Ltac items_tac :=
  unfold in_urls, in_results in *; simpl in *;
  repeat match goal with
  | H : seeder _ = _ |- _ => rewrite ?H in *; clear H
  | H : buf _ = _ :: _ |- _ => rewrite ?H in *; clear H
  | H : buf _ = [] |- _ => rewrite ?H in *; clear H
  end;
  repeat match goal with
  | H : <[_ := _]> _ ≡ₚ _ |- _ => rewrite ?H; clear H
  end;
  repeat match goal with
  | H : workers _ ≡ₚ _ |- _ => rewrite ?H in *; clear H
  end;
  rewrite ?bind_cons, ?fmap_app in *; simpl in *;
  match goal with
  | H : _ ≡ₚ ?e |- _ ≡ₚ ?e => rewrite <- H; solve_Permutation
  end.

Lemma elem_of_insert_other {A} (l : list A) i x y z :
  l !! i = Some x → z ≠ y → z ∈ <[i := y]> l → z ∈ l.
Proof.
  intros Hi Hne. destruct (insert_split l i x y Hi) as (rest & Hw1 & Hw2).
  rewrite Hw2, Hw1, !elem_of_cons. intros [?|?]; [done|by right].
Qed.

Lemma elem_of_insert_same {A} (l : list A) i x y :
  l !! i = Some x → y ∈ <[i := y]> l.
Proof.
  intros Hi. destruct (insert_split l i x y Hi) as (rest & Hw1 & Hw2).
  rewrite Hw2. apply elem_of_cons. by left.
Qed.

Lemma ticker_exec_pc t c rl rl' :
  is_done (rl_ctx rl) c = false → ticker_exec t c rl = Ready rl' →
  pc rl' = TReturned → pc rl = TReturned.
Proof.
  intros Hnd. unfold ticker_exec.
  destruct t, (pc rl) eqn:Hpc; try done.
  - destruct (tick_period _ _); [|done]. case_match; [done|]. by intros [= <-].
  - by intros [= <-].
  - destruct (send tt _); try done. by intros [= <-].
  - by rewrite Hnd.
Qed.

Lemma all_returned (l : list worker_pc) :
  sum_list_with live l = 0 → ∀ p, p ∈ l → p = WReturned.
Proof.
  induction l as [|q l IH]; simpl; [by intros _ p ?%elem_of_nil|].
  intros Hs p [->|Hp]%elem_of_cons.
  - by destruct q.
  - apply IH; [lia|done].
Qed.

Lemma all_returned_bind {B} (f : worker_pc → list B) (l : list worker_pc) :
  f WReturned = [] → (∀ p, p ∈ l → p = WReturned) → l ≫= f = [].
Proof.
  intros Hf. induction l as [|q l IH]; intros Hl; [done|].
  rewrite bind_cons, (Hl q), Hf by (apply elem_of_cons; by left).
  apply IH. intros p Hp. apply Hl, elem_of_cons. by right.
Qed.

Lemma replicate_bind_nil {A B} (f : A → list B) x k :
  f x = [] → replicate k x ≫= f = [].
Proof. intros Hx. induction k; csimpl; [done|]. by rewrite Hx. Qed.

(** The scrape function and the URLs of the call. *)
Section Steady.
Context (f : ScrapeFunc) (urls : list string).

Lemma exec_steady a w w' :
  steady f urls w → is_cancel a = false → exec a w = Some w' → steady f urls w'.
Proof.
  intros Hst Hnc Ha.
  assert (wf (length urls) w') as Hwf' by (eapply exec_wf; [apply Hst|done]).
  destruct Hst as [Hwf Hwork Hctx Hrlctx Htick Hne Hrange Hitems].
  revert Ha. unfold exec. rewrite (wf_crashed _ _ Hwf), Hctx.
  destruct a; try done.
  - (* the limiter's goroutine *)
    destruct (ticker_exec _ _ _) eqn:Ht; simpl; try done.
    + intros [= <-]. constructor; simpl; try done.
      * by apply ticker_exec_ok in Ht as (? & -> & ? & ?); [|apply Hwf].
      * intros Hp. apply Htick. by eapply ticker_exec_pc.
    + by apply ticker_exec_no_panic in Ht; [|apply Hwf].
  - (* seeder: send *)
    destruct (seeder w) as [[|u rest]|] eqn:Hs; try done.
    destruct (send u (urlChan w)) eqn:Hsend; simpl; try done.
    + intros [= <-]. apply send_Ready in Hsend as (Hc & _ & ->).
      constructor; simpl; try done.
      * intros Hin. destruct (Hrange Hin). congruence.
      * items_tac.
    + intros [= <-]. by apply wf_crashed in Hwf'.
  - (* seeder: cancelled *)
    by destruct (seeder w) as [[|]|].
  - (* seeder: end of loop *)
    destruct (seeder w) as [[|u rest]|] eqn:Hs; try done.
    destruct (close (urlChan w)) eqn:Hcl; simpl; try done.
    + intros [= <-]. apply close_Ready in Hcl as (Hc & ->).
      constructor; simpl; try done.
      * intros Hin. destruct (Hrange Hin). congruence.
      * items_tac.
    + intros [= <-]. by apply wf_crashed in Hwf'.
  - (* worker: range *)
    destruct (workers w !! i) as [[]|] eqn:Hi; try done.
    destruct (recv (urlChan w)) as [[[u|] ch]| |] eqn:Hr; try done; intros [= <-].
    + apply recv_Some in Hr as (Hb & Hcap & Hcl).
      destruct (insert_split _ _ _ (WSelectToken u) Hi) as (rest & Hw1 & Hw2).
      constructor; simpl; try done.
      * by rewrite length_insert.
      * intros Hin. apply elem_of_insert_other with (x := WRange) in Hin; [|done..].
        destruct (Hrange Hin). congruence.
      * items_tac.
    + apply recv_None in Hr as (Hb & Hcl & _).
      destruct (worker_live_wg _ _ _ _ Hwf Hi eq_refl) as (k & Hk & Hsup & _).
      unfold worker_return in *. rewrite Hk in *.
      destruct (insert_split _ _ _ WReturned Hi) as (rest & Hw1 & Hw2).
      constructor; simpl; try done.
      * by rewrite length_insert.
      * items_tac.
  - (* worker: token *)
    destruct (workers w !! i) as [[]|] eqn:Hi; try done.
    destruct (take_token (limiter w)) eqn:Ht; [|done]. intros [= <-].
    apply take_token_ok in Ht as (? & Hc & ? & ? & Hp & ?); [|apply Hwf].
    destruct (insert_split _ _ _ (WScrape url) Hi) as (rest & Hw1 & Hw2).
    constructor; simpl; try done.
    + by rewrite Hc.
    + by rewrite Hp.
    + by rewrite length_insert.
    + intros Hin.
      apply elem_of_insert_other with (x := WSelectToken url) in Hin; [|done..].
      by apply Hrange.
    + items_tac.
  - (* worker: cancelled before the token *)
    by destruct (workers w !! i) as [[]|].
  - (* worker: scrapeFunc *)
    destruct (workers w !! i) as [[]|] eqn:Hi; try done. intros [= <-].
    rewrite Hwork in Hwf' |- *.
    destruct (insert_split _ _ _ (WSelectSend (f false url)) Hi) as (rest & Hw1 & Hw2).
    constructor; simpl; try done.
    + by rewrite length_insert.
    + intros Hin. apply elem_of_insert_other with (x := WScrape url) in Hin; [|done..].
      by apply Hrange.
    + items_tac.
  - (* worker: send *)
    destruct (workers w !! i) as [[]|] eqn:Hi; try done.
    destruct (send r (results w)) eqn:Hsend; simpl; try done.
    + intros [= <-]. apply send_Ready in Hsend as (_ & _ & ->).
      destruct (insert_split _ _ _ WRange Hi) as (rest & Hw1 & Hw2).
      constructor; simpl; try done.
      * by rewrite length_insert.
      * intros Hin.
        apply elem_of_insert_other with (x := WSelectSend r) in Hin; [|done..].
        by apply Hrange.
      * items_tac.
    + intros [= <-]. by apply wf_crashed in Hwf'.
  - (* worker: cancelled before the send *)
    by destruct (workers w !! i) as [[]|].
  - (* wg.Wait *)
    destruct (sup w) eqn:Hs, (wg w) eqn:Hw; try done. intros [= <-].
    constructor; simpl; try done.
    intros Hp. by apply Htick in Hp.
  - (* close(results) *)
    destruct (sup w) eqn:Hs; try done.
    destruct (close (results w)) eqn:Hcl; simpl; try done.
    + intros [= <-]. apply close_Ready in Hcl as (Hc & ->).
      constructor; simpl; try done.
      intros Hp. by apply Htick in Hp.
    + intros [= <-]. by apply wf_crashed in Hwf'.
  - (* Stop *)
    destruct (sup w) eqn:Hs; try done.
    destruct (Stop (limiter w)) eqn:Hst; [|done]. intros [= <-].
    apply Stop_ok in Hst as (? & Hc & ? & ? & ? & ?); [|apply Hwf].
    constructor; simpl; try done. by rewrite Hc.
  - (* the caller reads *)
    destruct (recv (results w)) as [[[r|] ch]| |] eqn:Hr; try done.
    destruct (drained w) eqn:Hd; [done|]. intros [= <-].
    apply recv_Some in Hr as (Hb & Hcap & Hcl).
    constructor; simpl; try done. items_tac.
  - (* the caller sees the end *)
    destruct (recv (results w)) as [[[r|] ch]| |] eqn:Hr; try done.
    destruct (drained w) eqn:Hd; [done|]. by intros [= <-].
Qed.

Lemma run_steady tr w w' :
  steady f urls w → forallb (λ a, negb (is_cancel a)) tr = true →
  run tr w = Some w' → steady f urls w'.
Proof.
  revert w. induction tr as [|a tr IH]; intros w Hst; simpl.
  - by intros _ [= <-].
  - intros [Ha Htr]%andb_true_iff. destruct (exec a w) as [w1|] eqn:He; [|done].
    apply IH; [|done]. eapply exec_steady; [done| |done]. by destruct (is_cancel a).
Qed.


(** Once the caller has seen the channel closed it holds every Result. *)
Lemma steady_drained w :
  steady f urls w → drained w = true → received w ≡ₚ f false <$> urls.
Proof.
  intros [Hwf Hwork Hctx Hrlctx Htick Hne Hrange Hitems] Hdr.
  destruct (wf_drained _ _ Hwf Hdr) as [Hcl Hrb].
  assert (wg w = 0) as Hwg.
  { apply (wf_sup _ _ Hwf). rewrite (wf_resclosed _ _ Hwf) in Hcl. by destruct (sup w). }
  rewrite (wf_wg _ _ Hwf) in Hwg. pose proof (all_returned _ Hwg) as Hret.
  assert (WReturned ∈ workers w) as Hin.
  { destruct (workers w) as [|p l]; [simpl in Hne; lia|].
    rewrite <- (Hret p) by (apply elem_of_cons; by left). apply elem_of_cons. by left. }
  destruct (Hrange Hin) as [Hucl Hub].
  rewrite (wf_urlclosed _ _ Hwf) in Hucl.
  unfold in_urls, in_results in Hitems.
  rewrite !all_returned_bind, Hub, Hrb in Hitems by done.
  destruct (seeder w); [done|]. simpl in Hitems. done.
Qed.


End Steady.

Lemma ScrapeURLs_steady s rl c ctx urls w :
  rlm s = Some rl → rl_good rl → pc rl ≠ TReturned →
  is_done ctx c = false → is_done (rl_ctx rl) c = false →
  (1 ≤ maxWorkers s)%Z →
  ScrapeURLs s c ctx urls = inr w → steady (scrapeFunc s) urls w.
Proof.
  intros Hrl Hgood Hpc Hctx Hrlctx Hmw Hw.
  assert (wf (length urls) w) as Hwf.
  { eapply ScrapeURLs_wf; [|done]. intros rl' ?. by simplify_eq. }
  revert Hw. unfold ScrapeURLs. rewrite Hrl. intros [= <-].
  constructor; simpl; try done.
  - rewrite length_replicate. lia.
  - intros [? _]%elem_of_replicate. done.
  - unfold in_urls, in_results. simpl.
    rewrite !replicate_bind_nil by done. simpl. by rewrite !app_nil_r.
Qed.

(** ** The scheduler reaches the end *)

Lemma first_enabled_Some l w a w' :
  first_enabled l w = Some (a, w') → a ∈ l ∧ exec a w = Some w'.
Proof.
  induction l as [|b l IH]; simpl; [done|].
  destruct (exec b w) as [w1|] eqn:Hb.
  - intros [= <- <-]. split; [apply elem_of_cons; by left|done].
  - intros [? ?]%IH. split; [apply elem_of_cons; by right|done].
Qed.

Lemma first_enabled_None l w a :
  first_enabled l w = None → a ∈ l → exec a w = None.
Proof.
  induction l as [|b l IH]; simpl; [by intros _ ?%elem_of_nil|].
  destruct (exec b w) as [w1|] eqn:Hb; [done|].
  intros Hl [->|?]%elem_of_cons; [done|by apply IH].
Qed.

Lemma candidates_cancel w a : a ∈ candidates w → is_cancel a = false.
Proof.
  unfold candidates. rewrite elem_of_app, list_elem_of_bind.
  intros [Ha|(i & Ha & _)].
  - repeat (apply elem_of_cons in Ha as [->|Ha]; [done|]). by apply elem_of_nil in Ha.
  - repeat (apply elem_of_cons in Ha as [->|Ha]; [done|]). by apply elem_of_nil in Ha.
Qed.

Lemma candidates_complete w a :
  is_cancel a = false → is_Some (exec a w) → a ∈ candidates w.
Proof.
  intros Hc [w' Ha]. unfold candidates. rewrite elem_of_app, list_elem_of_bind.
  assert (∀ i, is_Some (workers w !! i) → i ∈ seq 0 (length (workers w))) as Hseq.
  { intros i Hi%lookup_lt_is_Some. apply elem_of_seq. lia. }
  revert Ha. unfold exec. destruct (crashed w); [done|].
  destruct a; try done; try (intros _; left; by repeat constructor).
  1: { intros _. left. destruct t; by repeat constructor. }
  all: destruct (workers w !! i) eqn:Hi; [|done]; intros _; right; exists i;
    (split; [by repeat constructor|by apply Hseq]).
Qed.

Lemma first_enabled_quiescent w :
  first_enabled (candidates w) w = None → quiescent w.
Proof.
  intros Hn a Hc. destruct (exec a w) as [w'|] eqn:Ha; [|done].
  rewrite <- Ha. eapply first_enabled_None; [done|]. apply candidates_complete; [done|].
  by rewrite Ha.
Qed.

Lemma schedule_run fuel w tr w' :
  schedule fuel w = (tr, w') →
  run tr w = Some w' ∧ no_cancel tr = true ∧ (measure w ≤ fuel → quiescent w').
Proof.
  revert w tr w'. induction fuel as [|k IH]; intros w tr w'; cbn [schedule].
  - intros [= <- <-]. split_and!; [done..|].
    intros Hm a Hc. destruct (exec a w) as [w1|] eqn:Ha; [|done].
    apply exec_measure in Ha. lia.
  - destruct (first_enabled (candidates w) w) as [[a w1]|] eqn:Hf.
    + destruct (schedule k w1) as [tr1 w2] eqn:Hs. intros [= <- <-].
      apply first_enabled_Some in Hf as [Hin Ha].
      destruct (IH _ _ _ Hs) as (Hr & Hnc & Hq).
      simpl. rewrite Ha. split_and!; [done| |].
      * unfold no_cancel in *. simpl. by rewrite (candidates_cancel _ _ Hin).
      * intros Hm. apply Hq. apply exec_measure in Ha. lia.
    + intros [= <- <-]. split_and!; [done..|]. intros _.
      by apply first_enabled_quiescent.
Qed.





(** ** The limiter and its callers *)

Lemma Wait_ok br c ctx rl ok rl' :
  rl_ok rl → Wait br c ctx rl = Some (ok, rl') →
  rl_ok rl' ∧ intervals rl' = intervals rl ∧ timeSpan rl' = timeSpan rl
  ∧ pc rl' = pc rl
  ∧ ((br = CaseToken ∧ ok = true ∧ tokens rl = S (tokens rl'))
     ∨ (br = CaseDone ∧ ok = false ∧ rl' = rl ∧ is_done ctx c = true)).
Proof.
  intros Hok. unfold Wait. destruct br.
  - destruct (take_token rl) as [rl1|] eqn:Ht; [|done]. intros [= <- <-].
    apply take_token_ok in Ht as (? & ? & ? & ? & ? & ?); [|done].
    split_and!; try done. left. by unfold tokens.
  - destruct (is_done ctx c) eqn:Hd; [|done]. intros [= <- <-].
    split_and!; try done. by right.
Qed.

Lemma rl_exec_ok a w w' :
  rl_ok (rw_limiter w) → rl_exec a w = Some w' →
  rl_ok (rw_limiter w') ∧ intervals (rw_limiter w') = intervals (rw_limiter w)
  ∧ timeSpan (rw_limiter w') = timeSpan (rw_limiter w).
Proof.
  intros Hok. unfold rl_exec. destruct (rw_crashed w); [done|].
  destruct a.
  - destruct (is_done c _); [done|]. by intros [= <-].
  - destruct (ticker_exec _ _ _) eqn:Ht; try done; intros [= <-]; simpl; [|done].
    by apply ticker_exec_ok in Ht as (? & ? & ? & ?).
  - destruct (rw_callers w !! i) as [[[|[ctx|] rest] lg]|]; try done.
    destruct (Wait _ _ _ _) as [[ok rl]|] eqn:Hw; [|done]. intros [= <-]. simpl.
    by apply Wait_ok in Hw as (? & ? & ? & _).
  - destruct (rw_callers w !! i) as [[[|[ctx|] rest] lg]|]; try done.
    destruct (Stop _) as [rl|] eqn:Hs; [|done]. intros [= <-]. simpl.
    by apply Stop_ok in Hs as (? & ? & ? & ? & _).
Qed.

Lemma rl_run_ok tr w w' :
  rl_ok (rw_limiter w) → rl_run tr w = Some w' →
  rl_ok (rw_limiter w') ∧ intervals (rw_limiter w') = intervals (rw_limiter w)
  ∧ timeSpan (rw_limiter w') = timeSpan (rw_limiter w).
Proof.
  revert w. induction tr as [|a tr IH]; intros w Hok; simpl.
  - by intros [= <-].
  - destruct (rl_exec a w) as [w1|] eqn:Ha; [|done]. intros Hr.
    apply rl_exec_ok in Ha as (Hok1 & Hi & Ht); [|done].
    destruct (IH _ Hok1 Hr) as (? & ? & ?). split_and!; [done|congruence..].
Qed.

(** [C2] However the limiter's goroutine and any number of callers
    interleave, the token channel never holds more than [intervals]
    tokens: it was made with that capacity and a send into a full channel
    does not complete. *)
Theorem tokens_never_exceed_intervals ctx ts iv rl c callers tr w :
  NewRateLimiter ctx ts iv = Some rl →
  rl_run tr (MkRLWorld c rl callers false) = Some w →
  (Z.of_nat (tokens (rw_limiter w)) ≤ iv)%Z
  ∧ cap (limitCh (rw_limiter w)) = Z.to_nat iv.
Proof.
  intros Hnew Hrun. apply NewRateLimiter_ok in Hnew as (Hok & _ & _ & _ & Hiv & _).
  apply rl_run_ok in Hrun as ((Hlen & Hcap & _) & Hi & _); [|done].
  simpl in *. unfold tokens. split; lia.
Qed.

Lemma tokens_never_exceed_intervals_witness :
  ∃ rl w, NewRateLimiter 0 second 2 = Some rl
    ∧ rl_run [RTicker TkNewTicker; RTicker TkTick; RTicker TkSend;
              RTicker TkTick; RTicker TkSend; RTicker TkTick]
        (MkRLWorld [] rl [] false) = Some w
    ∧ tokens (rw_limiter w) = 2
    ∧ rl_exec (RTicker TkSend) w = None
    ∧ (Z.of_nat (tokens (rw_limiter w)) ≤ 2)%Z.
Proof.
  eexists _, _. split; [reflexivity|]. split; [reflexivity|].
  split; [reflexivity|]. split; [reflexivity|].
  exact (proj1 (tokens_never_exceed_intervals 0 second 2 _ [] []
    [RTicker TkNewTicker; RTicker TkTick; RTicker TkSend;
     RTicker TkTick; RTicker TkSend; RTicker TkTick] _ eq_refl eq_refl)).
Defined.

(** *** Wait *)

Lemma filter_cons_length {A} (P : A → Prop) `{∀ x, Decision (P x)} x l :
  length (filter P (x :: l)) = (if decide (P x) then 1 else 0) + length (filter P l).
Proof. rewrite filter_cons. by destruct (decide (P x)). Qed.

Lemma acquired_insert cs i cl cl' :
  cs !! i = Some cl →
  acquired (<[i := cl']> cs) + wins cl = acquired cs + wins cl'.
Proof. apply sum_insert. Qed.

Lemma rl_exec_tokens a w w' :
  rl_ok (rw_limiter w) → rl_exec a w = Some w' →
  tokens_sent [a] + tokens (rw_limiter w) + acquired (rw_callers w)
  = tokens (rw_limiter w') + acquired (rw_callers w').
Proof.
  intros Hok. unfold rl_exec. destruct (rw_crashed w); [done|].
  destruct a.
  - destruct (is_done c _); [done|]. by intros [= <-].
  - destruct (ticker_exec _ _ _) eqn:Ht; try done; intros [= <-]; simpl.
    2: { destruct t; try done. unfold ticker_exec in Ht.
         destruct (pc _); try done. destruct (send tt _) eqn:Hs; try done.
         apply send_Panic in Hs. destruct Hok as (_ & _ & ?). congruence. }
    revert Ht. unfold ticker_exec, tokens.
    destruct t, (pc (rw_limiter w)) eqn:Hpc; try done.
    + destruct (tick_period _ _); [|done]. case_match; [done|]. by intros [= <-].
    + by intros [= <-].
    + destruct (send tt _) eqn:Hs; try done.
      apply send_Ready in Hs as (? & ? & ->). intros [= <-]. simpl.
      rewrite length_app. simpl. unfold tokens_sent. simpl. lia.
    + case_match; [|done]. by intros [= <-].
  - destruct (rw_callers w !! i) as [[[|[ctx|] rest] lg]|] eqn:Hi; try done.
    destruct (Wait _ _ _ _) as [[ok rl]|] eqn:Hw; [|done]. intros [= <-]. simpl.
    pose proof (acquired_insert _ _ _ (MkCaller rest (RetWait ok :: lg)) Hi) as Hacq.
    unfold wins in Hacq. simpl in Hacq. rewrite filter_cons_length in Hacq.
    apply Wait_ok in Hw as (_ & _ & _ & _ & [(_ & -> & Ht)|(_ & -> & -> & _)]); [| |done].
    + rewrite decide_True in Hacq by done. unfold tokens_sent. simpl. lia.
    + rewrite decide_False in Hacq by done. unfold tokens_sent. simpl. lia.
  - destruct (rw_callers w !! i) as [[[|[ctx|] rest] lg]|] eqn:Hi; try done.
    destruct (Stop _) as [rl|] eqn:Hs; [|done]. intros [= <-]. simpl.
    pose proof (acquired_insert _ _ _ (MkCaller rest (RetStop :: lg)) Hi) as Hacq.
    unfold wins in Hacq. simpl in Hacq. rewrite filter_cons_length in Hacq.
    rewrite decide_False in Hacq by done.
    unfold Stop in Hs. destruct (pc _); try done. injection Hs as <-.
    unfold tokens_sent, tokens. simpl. lia.
Qed.

Lemma tokens_sent_cons a tr :
  tokens_sent (a :: tr) = tokens_sent [a] + tokens_sent tr.
Proof.
  unfold tokens_sent. rewrite !filter_cons_length. simpl. lia.
Qed.

Lemma rl_run_tokens tr w w' :
  rl_ok (rw_limiter w) → rl_run tr w = Some w' →
  tokens_sent tr + tokens (rw_limiter w) + acquired (rw_callers w)
  = tokens (rw_limiter w') + acquired (rw_callers w').
Proof.
  revert w. induction tr as [|a tr IH]; intros w Hok; simpl.
  - by intros [= <-].
  - destruct (rl_exec a w) as [w1|] eqn:Ha; [|done]. intros Hr.
    pose proof (rl_exec_tokens _ _ _ Hok Ha).
    apply rl_exec_ok in Ha as (Hok1 & _); [|done].
    specialize (IH _ Hok1 Hr). rewrite tokens_sent_cons. lia.
Qed.

(** [C5] In any world the limiter and its callers can reach: a [Wait]
    that returns through the token case returns true and leaves the
    channel one token shorter; one that returns through the [ctx.Done()]
    case returns false, its context is done and the limiter is untouched;
    a [Wait] can return in neither way exactly when there is no token
    and its context is not done; and every token sent so far is either
    still in the channel or accounts for one true returned to one
    caller. *)
Theorem Wait_takes_exactly_one_token ctx0 ts iv rl c callers tr w :
  NewRateLimiter ctx0 ts iv = Some rl →
  rl_run tr (MkRLWorld c rl callers false) = Some w →
  (∀ i br w', rl_exec (RWait i br) w = Some w' →
     ∃ ctx rest lg ok,
       rw_callers w !! i = Some (MkCaller (CallWait ctx :: rest) lg)
       ∧ rw_callers w' = <[i := MkCaller rest (RetWait ok :: lg)]> (rw_callers w)
       ∧ ((br = CaseToken ∧ ok = true
           ∧ tokens (rw_limiter w) = S (tokens (rw_limiter w')))
          ∨ (br = CaseDone ∧ ok = false
             ∧ is_done ctx (rw_cancelled w) = true
             ∧ rw_limiter w' = rw_limiter w)))
  ∧ (∀ i ctx rest lg,
       rw_crashed w = false →
       rw_callers w !! i = Some (MkCaller (CallWait ctx :: rest) lg) →
       ((∀ br, rl_exec (RWait i br) w = None)
        ↔ tokens (rw_limiter w) = 0 ∧ is_done ctx (rw_cancelled w) = false))
  ∧ tokens_sent tr + acquired callers
    = tokens (rw_limiter w) + acquired (rw_callers w).
Proof.
  intros Hnew Hrun.
  apply NewRateLimiter_ok in Hnew as (Hok0 & _ & _ & _ & _ & Hb0).
  pose proof (rl_run_ok tr (MkRLWorld c rl callers false) w Hok0 Hrun) as (Hok & _).
  split_and!.
  - intros i br w'. unfold rl_exec. destruct (rw_crashed w); [done|].
    destruct (rw_callers w !! i) as [[[|[ctx|] rest] lg]|] eqn:Hi; try done.
    destruct (Wait _ _ _ _) as [[ok rl1]|] eqn:Hw; [|done]. intros [= <-]. simpl.
    exists ctx, rest, lg, ok. split_and!; [done..|].
    apply Wait_ok in Hw as (_ & _ & _ & _ & [(? & ? & ?)|(? & ? & ? & ?)]); [| |done].
    + by left.
    + by right.
  - intros i ctx rest lg Hcr Hi. unfold rl_exec. rewrite Hcr, Hi.
    destruct Hok as (_ & _ & Hcl). unfold Wait, take_token, tokens, recv.
    rewrite Hcl. split.
    + intros Hn. pose proof (Hn CaseToken) as Ht. pose proof (Hn CaseDone) as Hd.
      simpl in Ht, Hd.
      destruct (buf (limitCh (rw_limiter w))) eqn:Hb;
        destruct (is_done ctx (rw_cancelled w)) eqn:Hdn; by try done.
    + intros [Ht Hd] br. apply length_zero_iff_nil in Ht. rewrite Ht, Hd.
      by destruct br.
  - pose proof (rl_run_tokens tr (MkRLWorld c rl callers false) w Hok0 Hrun) as Ht.
    simpl in Ht.
    unfold tokens in Ht at 1. rewrite Hb0 in Ht. simpl in Ht. lia.
Qed.

Lemma Wait_takes_exactly_one_token_witness :
  ∃ rl w, NewRateLimiter 0 second 5 = Some rl
    ∧ rl_run [RTicker TkNewTicker; RTicker TkTick; RTicker TkSend;
              RWait 1 CaseToken; RCancel 7; RWait 0 CaseDone]
        (MkRLWorld [] rl [MkCaller [CallWait 7] []; MkCaller [CallWait 7] []] false)
      = Some w
    ∧ rw_callers w = [MkCaller [] [RetWait false]; MkCaller [] [RetWait true]]
    ∧ 1 + 0 = tokens (rw_limiter w) + acquired (rw_callers w).
Proof.
  eexists _, _. split; [reflexivity|]. split; [reflexivity|]. split; [reflexivity|].
  exact (proj2 (proj2 (Wait_takes_exactly_one_token 0 second 5 _ []
    [MkCaller [CallWait 7] []; MkCaller [CallWait 7] []]
    [RTicker TkNewTicker; RTicker TkTick; RTicker TkSend;
     RWait 1 CaseToken; RCancel 7; RWait 0 CaseDone] _ eq_refl eq_refl))).
Defined.

(** *** Stop *)

Lemma stop_twice_step a w w' :
  stop_twice_inv w → rl_exec a w = Some w' → stop_twice_inv w'.
Proof.
  intros (Hcr & Hgood & Hcs). unfold rl_exec, stop_twice_inv. rewrite Hcr.
  destruct a.
  - destruct (is_done c _); [done|]. by intros [= <-].
  - destruct (ticker_exec _ _ _) eqn:Ht; try done.
    2: by apply ticker_exec_no_panic in Ht.
    intros [= <-]. simpl.
    pose proof Ht as Ht'.
    apply ticker_exec_ok in Ht as (? & ? & ? & ?); [|apply Hgood].
    split_and!; [done|by eapply rl_good_step|].
    destruct Hcs as [?|[? Hpc]]; [by left|]. right. split; [done|].
    revert Ht'. unfold ticker_exec. rewrite Hpc. by destruct t.
  - destruct Hcs as [->|[-> _]]; by destruct i as [|[|]].
  - destruct Hcs as [->|[-> Hpc]]; destruct i as [|[|]]; simpl; try done.
    + destruct (Stop _) as [rl|] eqn:Hs; [|done]. intros [= <-]. simpl.
      apply Stop_ok in Hs as (? & ? & ? & ? & ? & ?); [|apply Hgood].
      split_and!; [done|by eapply rl_good_step|]. by right.
    + unfold Stop. by rewrite Hpc.
Qed.

Lemma stop_twice_run tr w w' :
  stop_twice_inv w → rl_run tr w = Some w' → stop_twice_inv w'.
Proof.
  revert w. induction tr as [|a tr IH]; intros w Hinv; simpl.
  - by intros [= <-].
  - destruct (rl_exec a w) as [w1|] eqn:Ha; [|done]. apply IH.
    by eapply stop_twice_step.
Qed.

(** [C4] [rl := NewRateLimiter(ctx, time.Second, 5); rl.Stop(); rl.Stop()]
    in one goroutine: there is a run in which the first [Stop] returns,
    and in no run does the second: the goroutine always has a [Stop] left
    to finish.  Nothing panics. *)
Theorem Stop_twice_blocks_forever :
  ∃ rl, NewRateLimiter 0 second 5 = Some rl
    ∧ (∃ w1, rl_run [RTicker TkNewTicker; RStop 0]
               (MkRLWorld [] rl [MkCaller [CallStop; CallStop] []] false) = Some w1
         ∧ rw_callers w1 = [MkCaller [CallStop] [RetStop]]
         ∧ pc (rw_limiter w1) = TReturned
         ∧ Stop (rw_limiter w1) = None)
    ∧ ∀ tr w,
        rl_run tr (MkRLWorld [] rl [MkCaller [CallStop; CallStop] []] false) = Some w →
        rw_crashed w = false
        ∧ ∃ cl, rw_callers w = [cl] ∧ todo cl ≠ [] ∧ length (log cl) ≤ 1.
Proof.
  eexists. split; [reflexivity|]. split.
  - eexists. by repeat split.
  - intros tr w Hrun. apply stop_twice_run in Hrun as (Hcr & _ & Hcs).
    + split; [done|]. destruct Hcs as [->|[-> _]].
      * exists (MkCaller [CallStop; CallStop] []). simpl. split_and!; [done..|lia].
      * exists (MkCaller [CallStop] [RetStop]). simpl. split_and!; [done..|lia].
    + split_and!; [done| |by left]. repeat split; simpl; try done; unfold second; lia.
Qed.

(** ** Creating the limiter *)

(** [C3] As stated the property fails.  With [intervals = 0] creation
    does not fail: the handle is returned, the goroutine is started, and
    its first step divides by zero. *)
Lemma NewRateLimiter_zero_intervals_not_refused :
  ¬ (∀ ctx ts iv, (iv ≤ 0)%Z → NewRateLimiter ctx ts iv = None)
  ∧ NewRateLimiter 0 second 0 = Some (MkRateLimiter (make 0) 0 second 0 TStart)
  ∧ tick_period second 0 = None
  ∧ ticker_exec TkNewTicker [] (MkRateLimiter (make 0) 0 second 0 TStart) = Panic.
Proof.
  split_and!; try reflexivity.
  intros H. by specialize (H 0 second 0%Z ltac:(lia)).
Qed.

(** [C3] What holds instead.  [NewRateLimiter] checks nothing and has no
    error to return.  For [intervals >= 0] it returns the handle, with a token
    channel of capacity [intervals], and starts the goroutine; for
    [intervals < 0] it panics in [make], before any goroutine exists.  For
    [intervals > 0] the period [timeSpan / intervals] is computed without
    a division by zero, and the goroutine reaches its [select] when that
    period is positive. *)
Theorem NewRateLimiter_checks_nothing ctx ts iv :
  ((iv < 0)%Z → NewRateLimiter ctx ts iv = None)
  ∧ ((0 ≤ iv)%Z →
       NewRateLimiter ctx ts iv
       = Some (MkRateLimiter (make (Z.to_nat iv)) ctx ts iv TStart))
  ∧ ((0 < iv)%Z →
       tick_period ts iv = Some (ts ÷ iv)%Z
       ∧ ∀ c rl, NewRateLimiter ctx ts iv = Some rl → (0 < ts ÷ iv)%Z →
           ticker_exec TkNewTicker c rl = Ready (with_pc rl TSelect)).
Proof.
  unfold NewRateLimiter, tick_period. split_and!.
  - intros H. by destruct (Z.ltb_spec iv 0); [|lia].
  - intros H. by destruct (Z.ltb_spec iv 0); [lia|].
  - intros H. destruct (Z.eqb_spec iv 0); [lia|]. split; [done|].
    intros c rl. destruct (Z.ltb_spec iv 0); [lia|]. intros [= <-] Hq.
    unfold ticker_exec, tick_period. simpl.
    destruct (Z.eqb_spec iv 0); [lia|].
    by destruct (Z.leb_spec (ts ÷ iv) 0); [lia|].
Qed.

Lemma NewRateLimiter_checks_nothing_witness :
  NewRateLimiter 0 second (-1) = None
  ∧ NewRateLimiter 0 second 5 = Some (MkRateLimiter (make 5) 0 second 5 TStart)
  ∧ tick_period second 5 = Some 200000000%Z
  ∧ ticker_exec TkNewTicker [] (MkRateLimiter (make 5) 0 second 5 TStart)
    = Ready (MkRateLimiter (make 5) 0 second 5 TSelect).
Proof.
  pose proof (NewRateLimiter_checks_nothing 0 second (-1)) as (Hneg & _ & _).
  pose proof (NewRateLimiter_checks_nothing 0 second 5) as (_ & Hnew & Hpos).
  destruct (Hpos ltac:(lia)) as [Hper Hgo].
  split_and!.
  - apply Hneg. lia.
  - apply Hnew. lia.
  - exact Hper.
  - apply (Hgo [] _ (Hnew ltac:(lia))). reflexivity.
Defined.

(** ** ScrapeURLs without a limiter *)

(** [C6] [ScrapeURLs] returns an error exactly when no rate limiter is
    set; the error is the "rate limiter not set" one, and with it comes no
    channel and no goroutine.  With a limiter set it returns the channel,
    whatever the URLs, the worker count and the contexts. *)
Theorem ScrapeURLs_error_iff_no_limiter s c ctx urls :
  (rlm s = None → ScrapeURLs s c ctx urls = inl RateLimiterNotSet)
  ∧ (∀ e, ScrapeURLs s c ctx urls = inl e → rlm s = None ∧ e = RateLimiterNotSet)
  ∧ (∀ rl, rlm s = Some rl →
       ∃ w, ScrapeURLs s c ctx urls = inr w
            ∧ results w = make (length urls) ∧ received w = []
            ∧ workers w = replicate (Z.to_nat (maxWorkers s)) WRange).
Proof.
  unfold ScrapeURLs. split_and!.
  - by intros ->.
  - intros e. destruct (rlm s); [done|]. by intros [= <-].
  - intros rl ->. eexists. by split_and!.
Qed.

Lemma ScrapeURLs_error_iff_no_limiter_witness :
  ScrapeURLs (NewScraper net_ok 5 3) [] 0 ["a"; "b"]%string = inl RateLimiterNotSet.
Proof.
  apply (ScrapeURLs_error_iff_no_limiter (NewScraper net_ok 5 3) [] 0
           ["a"; "b"]%string).
  reflexivity.
Defined.

(** ** NewScraper *)

Lemma SetScrapeFunc_rlm fns s :
  rlm (foldr SetScrapeFunc s fns) = rlm s.
Proof. induction fns as [|fn fns IH]; simpl; [done|]. exact IH. Qed.

(** [C10] [NewScraper] does not use [rps]: the scraper is the same for
    every [rps], and it has no rate limiter.  Replacing the scrape
    function does not set one, so until [SetRateLimit] is called
    [ScrapeURLs] returns the "rate limiter not set" error.  After
    [SetRateLimit(ctx, timeSpan, intervals)] the limiter is the one
    [NewRateLimiter] makes from these three arguments, and the scraper,
    hence every world [ScrapeURLs] starts, is again the same for every
    [rps]. *)
Theorem NewScraper_ignores_rps net rps maxWorkers :
  (∀ rps', NewScraper net rps maxWorkers = NewScraper net rps' maxWorkers)
  ∧ rlm (NewScraper net rps maxWorkers) = None
  ∧ (∀ fns c ctx urls,
       ScrapeURLs (foldr SetScrapeFunc (NewScraper net rps maxWorkers) fns) c ctx urls
       = inl RateLimiterNotSet)
  ∧ (∀ ctx ts iv s,
       SetRateLimit ctx ts iv (NewScraper net rps maxWorkers) = Some s →
       rlm s = NewRateLimiter ctx ts iv
       ∧ ∀ rps' c ctx' urls,
           (s' ← SetRateLimit ctx ts iv (NewScraper net rps' maxWorkers);
            Some (ScrapeURLs s' c ctx' urls))
           = Some (ScrapeURLs s c ctx' urls)).
Proof.
  split_and!; try done.
  - intros fns c ctx urls. unfold ScrapeURLs. by rewrite SetScrapeFunc_rlm.
  - intros ctx ts iv s. unfold SetRateLimit.
    destruct (NewRateLimiter ctx ts iv) as [rl|]; [|done]. intros [= <-].
    split; [done|]. intros rps' c ctx' urls. done.
Qed.

Lemma NewScraper_ignores_rps_witness :
  ∃ s, SetRateLimit 0 second 5 (NewScraper net_ok 5 3) = Some s
    ∧ rlm s = NewRateLimiter 0 second 5
    ∧ SetRateLimit 0 second 5 (NewScraper net_ok 1000 3) = Some s.
Proof.
  eexists. split; [reflexivity|].
  destruct (NewScraper_ignores_rps net_ok 5 3) as (_ & _ & _ & H).
  destruct (H 0 second 5%Z _ eq_refl) as [Hrlm _].
  split; [exact Hrlm|reflexivity].
Defined.

(** ** What reaches the caller *)

Ltac traced_tac :=
  unfold in_urls, in_results in *; simpl in *;
  repeat match goal with
  | H : seeder _ = _ |- _ => rewrite ?H in *; clear H
  | H : buf _ = _ :: _ |- _ => rewrite ?H in *; clear H
  end;
  repeat match goal with
  | H : <[_ := _]> _ ≡ₚ _ |- _ => rewrite ?H; clear H
  end;
  repeat match goal with
  | H : workers _ ≡ₚ _ |- _ => rewrite ?H in *; clear H
  end;
  rewrite ?bind_cons in *; simpl in *;
  repeat first [rewrite Forall_app in * | rewrite Forall_cons in *
               | rewrite Forall_nil in * | rewrite length_app in *
               | rewrite length_cons in *];
  simpl in *.

Lemma worker_return_traced f urls w i p :
  traced f urls w → workers w !! i = Some p → traced f urls (worker_return w i).
Proof.
  intros [Hwork Hu Hr Hc] Hi. unfold worker_return. destruct (wg w); [done|].
  destruct (insert_split _ _ _ WReturned Hi) as (rest & Hw1 & Hw2).
  constructor; [done|..]; traced_tac.
  - tauto.
  - tauto.
  - lia.
Qed.

Lemma exec_traced f urls a w w' :
  traced f urls w → exec a w = Some w' → traced f urls w'.
Proof.
  intros Htr. pose proof Htr as [Hwork Hu Hr Hc]. unfold exec.
  destruct (crashed w); [done|].
  destruct a.
  - destruct (is_done c _); [done|]. destruct (_ || _); [|done]. by intros [= <-].
  - destruct (ticker_exec _ _ _); simpl; try done; by intros [= <-].
  - destruct (seeder w) as [[|u rest]|] eqn:Hs; try done.
    destruct (send u (urlChan w)) eqn:Hsend; simpl; try done; intros [= <-]; [|done].
    apply send_Ready in Hsend as (_ & _ & ->).
    constructor; [done|..]; traced_tac; [tauto|tauto|lia].
  - destruct (seeder w) as [[|u rest]|] eqn:Hs; try done.
    case_match; [|done].
    destruct (close (urlChan w)) eqn:Hcl; simpl; try done; intros [= <-]; [|done].
    apply close_Ready in Hcl as (_ & ->).
    constructor; [done|..]; traced_tac; [tauto|tauto|lia].
  - destruct (seeder w) as [[|u rest]|] eqn:Hs; try done.
    destruct (close (urlChan w)) eqn:Hcl; simpl; try done; intros [= <-]; [|done].
    apply close_Ready in Hcl as (_ & ->).
    constructor; [done|..]; traced_tac; [tauto|tauto|lia].
  - destruct (workers w !! i) as [[]|] eqn:Hi; try done.
    destruct (recv (urlChan w)) as [[[u|] ch]| |] eqn:Hr'; try done; intros [= <-].
    + apply recv_Some in Hr' as (Hb & _ & _).
      destruct (insert_split _ _ _ (WSelectToken u) Hi) as (rest & Hw1 & Hw2).
      constructor; [done|..]; traced_tac; [tauto|tauto|lia].
    + by eapply worker_return_traced.
  - destruct (workers w !! i) as [[]|] eqn:Hi; try done.
    destruct (take_token (limiter w)) eqn:Ht; [|done]. intros [= <-].
    destruct (insert_split _ _ _ (WScrape url) Hi) as (rest & Hw1 & Hw2).
    constructor; [done|..]; traced_tac; [tauto|tauto|lia].
  - destruct (workers w !! i) as [[]|] eqn:Hi; try done.
    case_match; [|done]. intros [= <-]. by eapply worker_return_traced.
  - destruct (workers w !! i) as [[]|] eqn:Hi; try done. intros [= <-].
    set (b := is_done (ctx w) (cancelled w)).
    destruct (insert_split _ _ _ (WSelectSend (work w b url)) Hi) as (rest & Hw1 & Hw2).
    constructor; [done|..]; traced_tac; [tauto| |lia].
    split; [|tauto]. exists b, url. rewrite Hwork. tauto.
  - destruct (workers w !! i) as [[]|] eqn:Hi; try done.
    destruct (send r (results w)) eqn:Hsend; simpl; try done; intros [= <-]; [|done].
    apply send_Ready in Hsend as (_ & _ & ->).
    destruct (insert_split _ _ _ WRange Hi) as (rest & Hw1 & Hw2).
    constructor; [done|..]; traced_tac; [tauto|tauto|lia].
  - destruct (workers w !! i) as [[]|] eqn:Hi; try done.
    case_match; [|done]. intros [= <-]. by eapply worker_return_traced.
  - destruct (sup w), (wg w); try done. by intros [= <-].
  - destruct (sup w); try done.
    destruct (close (results w)) eqn:Hcl; simpl; try done; intros [= <-]; [|done].
    by apply close_Ready in Hcl as (_ & ->).
  - destruct (sup w); try done. destruct (Stop _); [|done]. by intros [= <-].
  - destruct (recv (results w)) as [[[r|] ch]| |] eqn:Hr'; try done.
    destruct (drained w); [done|]. intros [= <-].
    apply recv_Some in Hr' as (Hb & _ & _).
    constructor; [done|..]; traced_tac; [tauto|tauto|lia].
  - destruct (recv (results w)) as [[[r|] ch]| |] eqn:Hr'; try done.
    destruct (drained w); [done|]. by intros [= <-].
Qed.

Lemma run_traced f urls tr w w' :
  traced f urls w → run tr w = Some w' → traced f urls w'.
Proof.
  revert w. induction tr as [|a tr IH]; intros w Htr; simpl.
  - by intros [= <-].
  - destruct (exec a w) as [w1|] eqn:Ha; [|done]. apply IH. by eapply exec_traced.
Qed.

Lemma ScrapeURLs_traced s c ctx urls w :
  ScrapeURLs s c ctx urls = inr w → traced (scrapeFunc s) urls w.
Proof.
  unfold ScrapeURLs. destruct (rlm s); [|done]. intros [= <-].
  constructor; [done|..]; unfold in_urls, in_results; simpl;
    rewrite !replicate_bind_nil by done; simpl; rewrite ?app_nil_r.
  - by apply Forall_forall.
  - done.
  - lia.
Qed.

(** ** The closing goroutine and Stop *)

(** What one action does to the limiter and to the closing goroutine. *)
Lemma exec_frame a w w' :
  exec a w = Some w' →
  (limiter w' = limiter w
   ∨ (∃ t, ticker_exec t (cancelled w) (limiter w) = Ready (limiter w'))
   ∨ take_token (limiter w) = Some (limiter w')
   ∨ Stop (limiter w) = Some (limiter w'))
  ∧ (sup w' = sup w
     ∨ (sup w = SupWait ∧ sup w' = SupClose)
     ∨ (sup w = SupClose ∧ sup w' = SupStop)
     ∨ (sup w = SupStop ∧ sup w' = SupReturned
        ∧ Stop (limiter w) = Some (limiter w'))).
Proof.
  unfold exec, lift_chan. destruct (crashed w); [done|].
  assert (∀ i, limiter (worker_return w i) = limiter w
               ∧ sup (worker_return w i) = sup w) as Hret.
  { intros i. unfold worker_return. by destruct (wg w). }
  destruct a;
    repeat match goal with
    | |- context [match seeder w with _ => _ end] => destruct (seeder w) as [[|? ?]|]
    | |- context [match workers w !! ?i with _ => _ end] =>
        destruct (workers w !! i) as [[]|]
    | |- context [match sup w with _ => _ end] => destruct (sup w) eqn:?
    | |- context [match wg w with _ => _ end] => destruct (wg w)
    | |- context [match recv ?c with _ => _ end] => destruct (recv c) as [[[?|] ?]| |]
    | |- context [match send ?x ?c with _ => _ end] => destruct (send x c)
    | |- context [match close ?c with _ => _ end] => destruct (close c)
    | |- context [match ticker_exec ?t ?c ?r with _ => _ end] =>
        destruct (ticker_exec t c r) eqn:?
    | |- context [match take_token ?r with _ => _ end] => destruct (take_token r) eqn:?
    | |- context [match Stop ?r with _ => _ end] => destruct (Stop r) eqn:?
    | |- context [if ?b then _ else _] => destruct b
    end; simpl; try done; intros [= <-];
    first [ destruct (Hret i) as [-> ->]; split; eauto 10
          | simpl; split; eauto 10 ].
Qed.

Lemma ticker_exec_returned t c rl : pc rl = TReturned → ticker_exec t c rl = Blocked.
Proof. intros Hpc. unfold ticker_exec. rewrite Hpc. by destruct t. Qed.

(** Once the limiter's goroutine has returned without the closing
    goroutine's [Stop], that [Stop] never returns. *)
Lemma returned_limiter_blocks_Stop tr w w' :
  pc (limiter w) = TReturned → sup w ≠ SupReturned → run tr w = Some w' →
  pc (limiter w') = TReturned ∧ sup w' ≠ SupReturned.
Proof.
  revert w. induction tr as [|a tr IH]; intros w Hpc Hsup; simpl.
  - by intros [= <-].
  - destruct (exec a w) as [w1|] eqn:Ha; [|done].
    apply exec_frame in Ha as [Hl Hs].
    assert (Stop (limiter w) = None) as Hstop by (unfold Stop; by rewrite Hpc).
    apply IH.
    + destruct Hl as [->|[[t Ht]|[Ht|Ht]]]; [done| | |congruence].
      * by rewrite ticker_exec_returned in Ht.
      * unfold take_token in Ht. destruct (recv _) as [[? ch]| |]; try done.
        by injection Ht as <-.
    + destruct Hs as [->|[[? ->]|[[? ->]|(_ & _ & ?)]]]; try done. congruence.
Qed.

(** [C7] One URL, one worker, one token per second, no cancellation, a
    fetch that lasts two ticks.  The caller receives the Result and sees
    the channel closed, after the worker has returned; but the limiter's
    goroutine is then blocked sending into the full token channel, the
    closing goroutine is blocked in [Stop], and neither ever moves
    again: the limiter is not stopped. *)
Theorem Stop_at_completion_never_returns :
  ∃ w0 w, started 1 second 1 ["a"%string] = Some w0
    ∧ no_cancel slow_fetch_trace = true
    ∧ run slow_fetch_trace w0 = Some w
    ∧ received w = [scrapeURL net_ok false "a"%string]
    ∧ drained w = true ∧ workers w = [WReturned] ∧ crashed w = false
    ∧ sup w = SupStop ∧ pc (limiter w) = TSend
    ∧ tokens (limiter w) = cap (limitCh (limiter w))
    ∧ quiescent w
    ∧ ∀ tr w', run tr w = Some w' →
        sup w' = SupStop ∧ pc (limiter w') = TSend.
Proof.
  eexists _, _. split; [reflexivity|]. split; [reflexivity|].
  split; [vm_compute; reflexivity|].
  match goal with |- context [drained ?w = true] => set (w7 := w) end.
  assert (quiescent w7) as Hq.
  { intros a Ha.
    by destruct a as [c|[]| | | |[|i]|[|i]|[|i]|[|i]|[|i]|[|i]| | | | |]. }
  split_and!; try reflexivity; [done|].
  assert (∀ c w1, exec (ACancel c) w7 = Some w1 → w1 = with_cancelled w7 [0]) as Hc.
  { intros [|c] w1; [|done]. by intros [= <-]. }
  assert (stuck (with_cancelled w7 [0])) as Hst.
  { intros a.
    by destruct a as [[|c]|[]| | | |[|i]|[|i]|[|i]|[|i]|[|i]|[|i]| | | | |]. }
  intros [|a tr] w'; simpl.
  { by intros [= <-]. }
  destruct (exec a w7) as [w1|] eqn:Ha; [|done].
  destruct (is_cancel a) eqn:Hca; [|by rewrite Hq in Ha].
  destruct a; try done. apply Hc in Ha as ->.
  destruct tr as [|b tr]; simpl.
  { by intros [= <-]. }
  by rewrite Hst.
Qed.

(** [C8] Two URLs, one worker; the context the limiter and [ScrapeURLs]
    share is cancelled after the first Result.  The caller gets one
    Result of two and sees the channel closed; the seeder, the worker and
    the limiter's goroutine have returned; but the closing goroutine is
    in [Stop], whose send nobody will ever receive: no action at all is
    possible any more. *)
Theorem cancelled_run_leaves_Stop_blocked :
  ∃ w0 w, started 1 second 5 ["a"; "b"]%string = Some w0
    ∧ run cancelled_trace w0 = Some w
    ∧ received w = [scrapeURL net_ok false "a"%string]
    ∧ drained w = true ∧ crashed w = false
    ∧ seeder w = SeedReturned ∧ workers w = [WReturned]
    ∧ pc (limiter w) = TReturned
    ∧ sup w = SupStop
    ∧ stuck w.
Proof.
  eexists _, _. split; [reflexivity|]. split; [vm_compute; reflexivity|].
  split_and!; try reflexivity.
  intros a.
  by destruct a as [[|c]|[]| | | |[|i]|[|i]|[|i]|[|i]|[|i]|[|i]| | | | |].
Qed.

(** ** Cancellation and the Results *)

(** [C9] As stated the property fails.  One URL, one worker, the default
    scrape function; the context is cancelled during the fetch.  The request
    fails with the context's error, the worker's [select] takes the send,
    and the caller receives a Result whose error is the cancellation. *)
Lemma cancellation_result_is_delivered :
  ∃ w0, started 1 second 5 ["a"%string] = Some w0
    ∧ (∃ w, run cancel_during_fetch_trace w0 = Some w
         ∧ received w = [MkResult "a" EmptyString (Some ContextCanceled)])
    ∧ ¬ never_delivers_cancellation w0.
Proof.
  eexists. split; [reflexivity|].
  assert (∃ w, run cancel_during_fetch_trace
                 (MkWorld [] 0 (scrapeURL net_ok)
                    (MkRateLimiter (make 5) 0 second 5 TStart)
                    (make 1) (make 1) (SeedLoop ["a"%string]) [WRange] 1 SupWait
                    [] false false) = Some w
             ∧ received w = [MkResult "a" EmptyString (Some ContextCanceled)])
    as (w & Hrun & Hrec).
  { eexists. split; [vm_compute; reflexivity|reflexivity]. }
  split.
  - by exists w.
  - intros Hnever. specialize (Hnever _ _ Hrun). rewrite Hrec in Hnever.
    by apply Forall_cons in Hnever as [? _].
Qed.

(** [C9] What holds instead.  Whatever is cancelled and whenever, every
    Result the caller receives is the value the scrape function returned
    for one of the submitted URLs: [ScrapeURLs] makes no Result of its own.  So a
    Result carrying the cancellation is received only if the scrape
    function returned it, and never when the scrape function returns no
    such Result.  The caller never receives more Results than URLs were
    submitted. *)
Theorem received_results_come_from_scrapeFunc s c ctx urls w0 tr w :
  ScrapeURLs s c ctx urls = inr w0 → run tr w0 = Some w →
  Forall (from_work (scrapeFunc s) urls) (received w)
  ∧ ((∀ b u, Error (scrapeFunc s b u) ≠ Some ContextCanceled) →
       Forall (λ r, Error r ≠ Some ContextCanceled) (received w))
  ∧ length (received w) ≤ length urls.
Proof.
  intros Hw0 Hrun. apply ScrapeURLs_traced in Hw0.
  destruct (run_traced _ _ _ _ _ Hw0 Hrun) as [_ _ Hres Hcount].
  unfold in_results in *. rewrite !Forall_app in Hres. rewrite !length_app in Hcount.
  destruct Hres as (_ & _ & Hrec). split_and!; [done| |lia].
  intros Hf. eapply Forall_impl; [exact Hrec|].
  intros r (b & u & _ & ->). apply Hf.
Qed.

Lemma received_results_come_from_scrapeFunc_witness :
  ∃ w0 w, started 1 second 5 ["a"%string] = Some w0
    ∧ run cancel_during_fetch_trace w0 = Some w
    ∧ Forall (from_work (scrapeURL net_ok) ["a"%string]) (received w)
    ∧ length (received w) ≤ 1.
Proof.
  eexists _, _. split; [reflexivity|]. split; [vm_compute; reflexivity|].
  lazymatch goal with
  | |- Forall _ (received ?w) ∧ _ =>
      destruct (received_results_come_from_scrapeFunc
                  (MkScraper net_ok (Some (MkRateLimiter (make 5) 0 second 5 TStart))
                     1 (scrapeURL net_ok))
                  [] 0 ["a"%string] _ cancel_during_fetch_trace w eq_refl)
        as (H1 & _ & H2)
  end.
  - vm_compute. reflexivity.
  - split; [exact H1|exact H2].
Defined.

(** ** A limiter that is running *)

Lemma SetRateLimit_running ctx ts iv c s :
  (0 < iv)%Z → (0 < ts ÷ iv)%Z → is_done ctx c = false →
  ∃ s' rl, SetRateLimit ctx ts iv s = Some s' ∧ rlm s' = Some rl
    ∧ maxWorkers s' = maxWorkers s ∧ scrapeFunc s' = scrapeFunc s
    ∧ limiter_running c rl.
Proof.
  intros Hiv Hq Hd. unfold SetRateLimit.
  destruct (NewRateLimiter ctx ts iv) as [rl|] eqn:Hnew.
  - apply NewRateLimiter_ok in Hnew as (Hok & Hpc & Hctx & Hts & Hi & _).
    eexists _, rl. split_and!; try done. unfold limiter_running, rl_good.
    rewrite Hts, Hi, Hpc, Hctx. by split_and!.
  - unfold NewRateLimiter in Hnew. by destruct (Z.ltb_spec iv 0); [lia|].
Qed.

(** Ticks between [SetRateLimit] and [ScrapeURLs] leave it running. *)
Lemma ticker_exec_running t c rl rl' :
  limiter_running c rl → ticker_exec t c rl = Ready rl' → limiter_running c rl'.
Proof.
  intros (Hgood & Hpc & Hd) Ht. pose proof Ht as Ht'.
  apply ticker_exec_ok in Ht as (Hok & Hc & Hts & Hi); [|apply Hgood].
  split_and!.
  - by eapply rl_good_step.
  - intros Hp. apply Hpc. by eapply ticker_exec_pc.
  - by rewrite Hc.
Qed.

(** ** Closing the stream *)

(** [results] is closed only when every worker has returned. *)
Lemma closed_after_workers n w :
  wf n w → closed (results w) = true → ∀ p, p ∈ workers w → p = WReturned.
Proof.
  intros Hwf Hcl. apply all_returned. rewrite <- (wf_wg _ _ Hwf).
  apply (wf_sup _ _ Hwf). rewrite (wf_resclosed _ _ Hwf) in Hcl.
  by destruct (sup w).
Qed.

Lemma exec_closes n a w w' :
  wf n w → exec a w = Some w' →
  closes [a] + close_weight (sup w') ≤ close_weight (sup w)
  ∧ stops [a] + sup_weight (sup w') ≤ sup_weight (sup w).
Proof.
  intros Hwf Ha. pose proof (exec_wf _ _ _ _ Hwf Ha) as Hwf'.
  pose proof Ha as [_ Hs]%exec_frame.
  assert (a = ASupClose → sup w = SupClose ∧ sup w' = SupStop) as Hcl.
  { intros ->. revert Ha. unfold exec. rewrite (wf_crashed _ _ Hwf).
    destruct (sup w) eqn:Hsw; try done.
    destruct (close _); simpl; try done; intros [= <-]; [done|].
    by apply wf_crashed in Hwf'. }
  assert (a = ASupStop → sup w = SupStop ∧ sup w' = SupReturned) as Hst.
  { intros ->. revert Ha. unfold exec. rewrite (wf_crashed _ _ Hwf).
    destruct (sup w) eqn:Hsw; try done.
    destruct (Stop _); [|done]. by intros [= <-]. }
  unfold closes, stops. rewrite !filter_cons_length. simpl.
  destruct (decide (a = ASupClose)) as [Hac|Hac].
  { destruct (Hcl Hac) as [Hw Hw']. rewrite Hw, Hw', decide_False by by subst.
    simpl. lia. }
  destruct (decide (a = ASupStop)) as [Has|Has].
  { destruct (Hst Has) as [Hw Hw']. rewrite Hw, Hw'. simpl. lia. }
  destruct Hs as [Hw|[[Hw Hw']|[[Hw Hw']|(Hw & Hw' & _)]]];
    rewrite ?Hw, ?Hw'; simpl; lia.
Qed.

(** In every run [close(results)] is executed at most once, and so is the
    return of [s.rlm.Stop()]; whenever [results] is closed all workers
    have returned. *)
Lemma results_closed_once_after_workers n tr w w' :
  wf n w → run tr w = Some w' →
  closes tr + close_weight (sup w') ≤ close_weight (sup w)
  ∧ stops tr + sup_weight (sup w') ≤ sup_weight (sup w)
  ∧ (closed (results w') = true → ∀ p, p ∈ workers w' → p = WReturned).
Proof.
  intros Hwf Hrun. split_and!; [| |apply (closed_after_workers n); by eapply run_wf].
  all: revert w Hwf Hrun; induction tr as [|a tr IH]; intros w Hwf; simpl;
    [by intros [= <-]|];
    destruct (exec a w) as [w1|] eqn:Ha; [|done]; intros Hrun;
    destruct (exec_closes _ _ _ _ Hwf Ha) as [H1 H2];
    specialize (IH _ (exec_wf _ _ _ _ Hwf Ha) Hrun);
    unfold closes, stops in *; rewrite filter_cons_length in *; simpl in *; lia.
Qed.

(** * Further properties *)

(** ** The configurations used below *)

Lemma limiter5_good : rl_good limiter5.
Proof. repeat split; simpl; try done; lia. Qed.

Lemma world_ab_started :
  ScrapeURLs scraper1 [] 0 ["a"; "b"]%string = inr world_ab.
Proof. reflexivity. Qed.

(** ** The default scrape function *)

(** [X1] The default scrape function always reports the URL it was
    given, and sets exactly one of [Content] and [Error]: when the request
    cannot be built or the client fails, the Result carries that error and
    an empty [Content]; when the client answers, it carries the status
    line and no error. *)
Theorem scrapeURL_error_or_status client done url :
  URL (scrapeURL client done url) = url
  ∧ (∀ e, NewRequestWithContext client url = Some e →
       scrapeURL client done url = MkResult url EmptyString (Some e))
  ∧ (∀ e, NewRequestWithContext client url = None → Do client done url = inl e →
       scrapeURL client done url = MkResult url EmptyString (Some e))
  ∧ (∀ code, NewRequestWithContext client url = None → Do client done url = inr code →
       scrapeURL client done url = MkResult url (status_line code) None)
  ∧ (Error (scrapeURL client done url) = None
     ↔ Content (scrapeURL client done url) ≠ EmptyString).
Proof.
  unfold scrapeURL.
  destruct (NewRequestWithContext client url) as [e0|] eqn:Hreq;
    [|destruct (Do client done url) as [e1|code] eqn:Hdo]; simpl;
    split_and!; try done; try (by intros ? [= <-]); try (by intros ? _ [= <-]).
Qed.

Lemma scrapeURL_error_or_status_witness :
  scrapeURL net_ok true "a"%string = MkResult "a"%string EmptyString (Some ContextCanceled)
  ∧ scrapeURL net_ok false "a"%string = MkResult "a"%string (status_line 200) None.
Proof.
  destruct (scrapeURL_error_or_status net_ok true "a"%string) as (_ & _ & Herr & _).
  destruct (scrapeURL_error_or_status net_ok false "a"%string) as (_ & _ & _ & Hok & _).
  split; [by apply Herr|by apply Hok].
Defined.

Lemma status_line_inj a b : status_line a = status_line b → a = b.
Proof.
  unfold status_line. simpl. intros [= H].
  assert (Nat.to_uint a = Nat.to_uint b) as Hu.
  { apply (f_equal NilEmpty.uint_of_string) in H. rewrite !NilEmpty.usu in H.
    by injection H. }
  apply (f_equal Nat.of_uint) in Hu. by rewrite !Unsigned.of_to in Hu.
Qed.

(** [X2] The Result of a fetch that succeeded tells the status code: two
    fetches that both got an answer give the same [Content] only for the
    same code. *)
Theorem scrapeURL_content_tells_status client1 client2 d1 d2 url1 url2 code1 code2 :
  NewRequestWithContext client1 url1 = None → Do client1 d1 url1 = inr code1 →
  NewRequestWithContext client2 url2 = None → Do client2 d2 url2 = inr code2 →
  Content (scrapeURL client1 d1 url1) = Content (scrapeURL client2 d2 url2) →
  code1 = code2.
Proof.
  unfold scrapeURL. intros -> -> -> ->. simpl. apply status_line_inj.
Qed.

Lemma scrapeURL_content_tells_status_witness :
  Content (scrapeURL net_ok false "a"%string) = Content (scrapeURL net_ok false "b"%string)
  ∧ 200 = 200.
Proof.
  split; [reflexivity|].
  exact (scrapeURL_content_tells_status net_ok net_ok false false "a"%string "b"%string 200 200
           eq_refl eq_refl eq_refl eq_refl eq_refl).
Defined.

Lemma quot_pos_iff ts iv : (0 < iv)%Z → (0 < ts ÷ iv)%Z ↔ (iv ≤ ts)%Z.
Proof.
  intros Hiv. destruct (Z.le_gt_cases 0 ts) as [Hts|Hts].
  - rewrite Z.quot_div_nonneg by lia. split.
    + intros Hq. pose proof (Z.mul_div_le ts iv Hiv). nia.
    + intros Hle. apply Z.div_str_pos. lia.
  - split; [|lia]. intros Hq.
    pose proof (Z.quot_opp_l ts iv ltac:(lia)) as Ho.
    assert (0 ≤ (- ts) ÷ iv)%Z by (apply Z.quot_pos; lia). lia.
Qed.

(** [X3] For a limiter that [NewRateLimiter] returned, the goroutine gets
    past [time.NewTicker] exactly when [0 < intervals <= timeSpan]; with
    [intervals = 0] (division by zero) or [timeSpan < intervals] (a period
    that is not positive) it panics.  When it starts, [intervals] periods
    fit into [timeSpan] and one more does not. *)
Theorem limiter_goroutine_starts_iff ctx ts iv c rl :
  NewRateLimiter ctx ts iv = Some rl →
  (ticker_exec TkNewTicker c rl = Ready (with_pc rl TSelect)
   ↔ (0 < iv ≤ ts)%Z)
  ∧ (ticker_exec TkNewTicker c rl = Panic ↔ (iv = 0 ∨ ts < iv)%Z)
  ∧ ((0 < iv ≤ ts)%Z →
       (iv * (ts ÷ iv) ≤ ts < iv * (ts ÷ iv + 1))%Z).
Proof.
  unfold NewRateLimiter. destruct (Z.ltb_spec iv 0) as [|Hnn]; [done|].
  intros [= <-]. unfold ticker_exec, tick_period. simpl.
  destruct (Z.eqb_spec iv 0) as [->|Hne].
  - split_and!; [split; [done|lia]|split; [by left|done]|lia].
  - pose proof (quot_pos_iff ts iv ltac:(lia)) as Hq.
    destruct (Z.leb_spec (ts ÷ iv) 0).
    + split_and!; [split; [done|lia]|split; [lia|done]|lia].
    + split_and!; [split; [lia|done]|split; [done|lia]|].
      intros _. rewrite Z.quot_div_nonneg by lia.
      pose proof (Z.mul_div_le ts iv ltac:(lia)).
      pose proof (Z.mul_succ_div_gt ts iv ltac:(lia)). lia.
Qed.

Lemma limiter_goroutine_starts_iff_witness :
  ticker_exec TkNewTicker [] limiter5 = Ready (with_pc limiter5 TSelect)
  ∧ ticker_exec TkNewTicker [] (MkRateLimiter (make 5) 0 3 5 TStart) = Panic
  ∧ (5 * (second ÷ 5) ≤ second < 5 * (second ÷ 5 + 1))%Z.
Proof.
  destruct (limiter_goroutine_starts_iff 0 second 5 [] limiter5 eq_refl)
    as (Hgo & _ & Hper).
  destruct (limiter_goroutine_starts_iff 0 3 5 []
              (MkRateLimiter (make 5) 0 3 5 TStart) eq_refl) as (_ & Hpanic & _).
  split; [|split].
  - apply Hgo. unfold second. lia.
  - apply Hpanic. lia.
  - apply Hper. unfold second. lia.
Defined.

(** ** What no action changes *)

Lemma exec_fixed a w w' :
  exec a w = Some w' →
  ctx w' = ctx w ∧ work w' = work w ∧ length (workers w') = length (workers w)
  ∧ (∀ c, is_done c (cancelled w) = true → is_done c (cancelled w') = true).
Proof.
  unfold exec, lift_chan. destruct (crashed w); [done|].
  assert (∀ i, ctx (worker_return w i) = ctx w ∧ work (worker_return w i) = work w
               ∧ length (workers (worker_return w i)) = length (workers w)
               ∧ cancelled (worker_return w i) = cancelled w) as Hret.
  { intros i. unfold worker_return. destruct (wg w); simpl; by rewrite ?length_insert. }
  destruct a;
    repeat match goal with
    | |- context [match seeder w with _ => _ end] => destruct (seeder w) as [[|? ?]|]
    | |- context [match workers w !! ?i with _ => _ end] =>
        destruct (workers w !! i) as [[]|]
    | |- context [match sup w with _ => _ end] => destruct (sup w) eqn:?
    | |- context [match wg w with _ => _ end] => destruct (wg w)
    | |- context [match recv ?c with _ => _ end] => destruct (recv c) as [[[?|] ?]| |]
    | |- context [match send ?x ?c with _ => _ end] => destruct (send x c)
    | |- context [match close ?c with _ => _ end] => destruct (close c)
    | |- context [match ticker_exec ?t ?c ?r with _ => _ end] =>
        destruct (ticker_exec t c r) eqn:?
    | |- context [match take_token ?r with _ => _ end] => destruct (take_token r) eqn:?
    | |- context [match Stop ?r with _ => _ end] => destruct (Stop r) eqn:?
    | |- context [if ?b then _ else _] => destruct b
    end; simpl; try done; intros [= <-];
    first [ destruct (Hret i) as (-> & -> & -> & ->); by split_and!
          | simpl; rewrite ?length_insert; split_and!; try done;
            intros c0 Hc0; simpl; rewrite Hc0; by destruct (Nat.eqb c0 c) ].
Qed.

Lemma run_fixed tr w w' :
  run tr w = Some w' →
  ctx w' = ctx w ∧ work w' = work w ∧ length (workers w') = length (workers w)
  ∧ (∀ c, is_done c (cancelled w) = true → is_done c (cancelled w') = true).
Proof.
  revert w. induction tr as [|a tr IH]; intros w; simpl.
  - by intros [= <-].
  - destruct (exec a w) as [w1|] eqn:Ha; [|done]. intros Hr.
    apply exec_fixed in Ha as (H1 & H2 & H3 & H4).
    apply IH in Hr as (H1' & H2' & H3' & H4').
    split_and!; try congruence. auto.
Qed.

(** ** Sends never block and nothing panics *)

Lemma wf_seeder_send n w u rest :
  wf n w → seeder w = SeedLoop (u :: rest) →
  send u (urlChan w) = Ready (Chan (buf (urlChan w) ++ [u]) (cap (urlChan w)) false).
Proof.
  intros Hwf Hs. apply send_room.
  - by rewrite (wf_urlclosed _ _ Hwf), Hs.
  - pose proof (wf_count _ _ Hwf) as Hc. unfold in_urls in Hc.
    rewrite Hs, (wf_urlcap _ _ Hwf) in *. simpl in Hc.
    rewrite !length_app in Hc. lia.
Qed.

Lemma wf_worker_send n w i r :
  wf n w → workers w !! i = Some (WSelectSend r) →
  send r (results w) = Ready (Chan (buf (results w) ++ [r]) (cap (results w)) false).
Proof.
  intros Hwf Hi.
  destruct (worker_live_wg _ _ _ _ Hwf Hi eq_refl) as (k & Hk & Hsup & Hcl).
  apply send_room; [done|].
  pose proof (wf_count _ _ Hwf) as Hc. unfold in_results in Hc.
  destruct (insert_split _ _ _ WReturned Hi) as (rest & Hw1 & _).
  rewrite Hw1, bind_cons in Hc. simpl in Hc. rewrite !length_app in Hc.
  rewrite (wf_rescap _ _ Hwf). simpl in Hc. lia.
Qed.

(** [X4] However the goroutines interleave and whenever a context is
    cancelled, a call of [ScrapeURLs] on a limiter made with arguments its
    goroutine accepts never panics: nothing is sent on a closed channel,
    no channel is closed twice, the [WaitGroup] counter equals the number
    of workers that have not returned.  The number of workers stays
    [maxWorkers]. *)
Theorem ScrapeURLs_run_never_panics s rl c ctx urls w0 tr w :
  rlm s = Some rl → rl_good rl →
  ScrapeURLs s c ctx urls = inr w0 → run tr w0 = Some w →
  crashed w = false
  ∧ wg w = sum_list_with live (workers w)
  ∧ length (workers w) = Z.to_nat (maxWorkers s)
  ∧ (closed (urlChan w) = true ↔ seeder w = SeedReturned)
  ∧ (closed (results w) = true ↔ sup w = SupStop ∨ sup w = SupReturned).
Proof.
  intros Hrl Hgood Hw0 Hrun.
  assert (wf (length urls) w) as Hwf.
  { eapply run_wf; [|done]. eapply ScrapeURLs_wf; [|done].
    intros rl' ?. by simplify_eq. }
  apply run_fixed in Hrun as (_ & _ & Hlen & _).
  split_and!; try apply Hwf.
  - rewrite Hlen. revert Hw0. unfold ScrapeURLs. rewrite Hrl. intros [= <-]. simpl.
    by rewrite length_replicate.
  - rewrite (wf_urlclosed _ _ Hwf). destruct (seeder w); simpl; split; done.
  - rewrite (wf_resclosed _ _ Hwf).
    destruct (sup w); simpl; split; intros H; try done; auto; by destruct H.
Qed.

Lemma ScrapeURLs_run_never_panics_witness :
  ∃ w, run cancelled_trace world_ab = Some w
    ∧ crashed w = false ∧ length (workers w) = 1.
Proof.
  assert (∃ w, run cancelled_trace world_ab = Some w) as [w Hrun]
    by (eexists; vm_compute; reflexivity).
  exists w. split; [exact Hrun|].
  destruct (ScrapeURLs_run_never_panics scraper1 limiter5 [] 0 ["a"; "b"]%string
              world_ab cancelled_trace w eq_refl limiter5_good world_ab_started Hrun)
    as (Hcr & _ & Hlen & _).
  split; [exact Hcr|exact Hlen].
Defined.

(** [X5] The channels are made as large as the list of URLs, so in a call
    on a limiter made with arguments its goroutine accepts (nothing
    panics) no send ever waits: whenever the seeder has a URL left its
    send into [urlChan] can go ahead, and whenever a worker holds a
    Result its send into [results] can go ahead, even if the caller reads
    nothing. *)
Theorem sends_never_block s rl c ctx urls w0 tr w :
  rlm s = Some rl → rl_good rl →
  ScrapeURLs s c ctx urls = inr w0 → run tr w0 = Some w →
  (∀ u rest, seeder w = SeedLoop (u :: rest) →
     ∃ w', exec ASeedSend w = Some w' ∧ seeder w' = SeedLoop rest
           ∧ buf (urlChan w') = buf (urlChan w) ++ [u])
  ∧ (∀ i r, workers w !! i = Some (WSelectSend r) →
       ∃ w', exec (AWSend i) w = Some w' ∧ workers w' !! i = Some WRange
             ∧ buf (results w') = buf (results w) ++ [r])
  ∧ length (buf (urlChan w)) ≤ length urls
  ∧ length (buf (results w)) ≤ length urls.
Proof.
  intros Hrl Hgood Hw0 Hrun.
  assert (wf (length urls) w) as Hwf.
  { eapply run_wf; [|done]. eapply ScrapeURLs_wf; [|done].
    intros rl' ?. by simplify_eq. }
  split_and!.
  - intros u rest Hs. unfold exec. rewrite (wf_crashed _ _ Hwf), Hs.
    rewrite (wf_seeder_send _ _ _ _ Hwf Hs). simpl. by eexists.
  - intros i r Hi. unfold exec. rewrite (wf_crashed _ _ Hwf), Hi.
    rewrite (wf_worker_send _ _ _ _ Hwf Hi). simpl. eexists. split_and!; try done.
    simpl. apply list_lookup_insert_eq. by eapply lookup_lt_Some.
  - pose proof (wf_count _ _ Hwf) as Hc. unfold in_urls in Hc.
    rewrite !length_app in Hc. lia.
  - pose proof (wf_count _ _ Hwf) as Hc. unfold in_results in Hc.
    rewrite !length_app in Hc. lia.
Qed.

Lemma sends_never_block_witness :
  ∃ w w', run [ASeedSend] world_ab = Some w
    ∧ exec ASeedSend w = Some w'
    ∧ buf (urlChan w') = buf (urlChan w) ++ ["b"%string].
Proof.
  assert (∃ w, run [ASeedSend] world_ab = Some w
               ∧ seeder w = SeedLoop ["b"%string]) as (w & Hrun & Hs)
    by (eexists; split; reflexivity).
  destruct (sends_never_block scraper1 limiter5 [] 0 ["a"; "b"]%string
              world_ab [ASeedSend] w eq_refl limiter5_good world_ab_started Hrun)
    as (Hseed & _).
  destruct (Hseed "b"%string [] Hs) as (w' & Hexec & _ & Hbuf).
  exists w, w'. split; [exact Hrun|]. split; [exact Hexec|exact Hbuf].
Defined.

(** ** Closing the stream, counted *)

Ltac exec_cases w :=
  repeat match goal with
  | |- context [match seeder w with _ => _ end] => destruct (seeder w) as [[|? ?]|]
  | |- context [match workers w !! ?i with _ => _ end] =>
      destruct (workers w !! i) as [[]|]
  | |- context [match sup w with _ => _ end] => destruct (sup w) eqn:?
  | |- context [match wg w with _ => _ end] => destruct (wg w)
  | |- context [match recv ?c with _ => _ end] => destruct (recv c) as [[[?|] ?]| |]
  | |- context [match send ?x ?c with _ => _ end] => destruct (send x c)
  | |- context [match close ?c with _ => _ end] => destruct (close c)
  | |- context [match ticker_exec ?t ?c ?r with _ => _ end] =>
      destruct (ticker_exec t c r) eqn:?
  | |- context [match take_token ?r with _ => _ end] => destruct (take_token r) eqn:?
  | |- context [match Stop ?r with _ => _ end] => destruct (Stop r) eqn:?
  | |- context [if ?b then _ else _] => destruct b
  end.

(** Only [close(results)] takes the closing goroutine from the close to
    [Stop], and only the return of [Stop] takes it further. *)
Lemma exec_sup_moves a w w' :
  exec a w = Some w' → crashed w' = false →
  (sup w = SupClose → sup w' = SupStop → a = ASupClose)
  ∧ (sup w = SupStop → sup w' = SupReturned → a = ASupStop)
  ∧ (a = ASupClose → sup w = SupClose ∧ sup w' = SupStop)
  ∧ (a = ASupStop → sup w = SupStop ∧ sup w' = SupReturned).
Proof.
  unfold exec, lift_chan. destruct (crashed w); [done|].
  assert (∀ i, sup (worker_return w i) = sup w) as Hret.
  { intros i. unfold worker_return. by destruct (wg w). }
  destruct a; exec_cases w; simpl; try done; intros [= <-]; simpl; intros Hcr;
    rewrite ?Hret; split_and!; try done; try congruence.
Qed.

Lemma exec_close_count n a w w' :
  wf n w → exec a w = Some w' →
  closes [a] + close_weight (sup w') = close_weight (sup w)
  ∧ stops [a] + stop_weight (sup w') = stop_weight (sup w).
Proof.
  intros Hwf Ha. pose proof (exec_wf _ _ _ _ Hwf Ha) as Hwf'.
  pose proof Ha as [_ Hs]%exec_frame.
  destruct (exec_sup_moves _ _ _ Ha (wf_crashed _ _ Hwf')) as (Hcl' & Hst' & Hcl & Hst).
  unfold closes, stops. rewrite !filter_cons_length. simpl.
  destruct (decide (a = ASupClose)) as [Hac|Hac].
  { destruct (Hcl Hac) as [Hw Hw']. rewrite Hw, Hw', decide_False by by subst.
    simpl. lia. }
  destruct (decide (a = ASupStop)) as [Has|Has].
  { destruct (Hst Has) as [Hw Hw']. rewrite Hw, Hw'. simpl. lia. }
  destruct Hs as [Hw|[[Hw Hw']|[[Hw Hw']|(Hw & Hw' & _)]]];
    rewrite ?Hw, ?Hw'; simpl; try lia.
  - by specialize (Hcl' Hw Hw').
  - by specialize (Hst' Hw Hw').
Qed.

Lemma run_close_count n tr w w' :
  wf n w → run tr w = Some w' →
  closes tr + close_weight (sup w') = close_weight (sup w)
  ∧ stops tr + stop_weight (sup w') = stop_weight (sup w).
Proof.
  revert w. induction tr as [|a tr IH]; intros w Hwf; simpl.
  - intros [= <-]. unfold closes, stops. simpl. lia.
  - destruct (exec a w) as [w1|] eqn:Ha; [|done]. intros Hrun.
    destruct (exec_close_count _ _ _ _ Hwf Ha) as [H1 H2].
    destruct (IH _ (exec_wf _ _ _ _ Hwf Ha) Hrun) as [H3 H4].
    unfold closes, stops in *. rewrite !filter_cons_length in *. simpl in *. lia.
Qed.

(** [X6] In every run of a call of [ScrapeURLs], cancelled or not,
    [close(results)] is executed at most once, and exactly once by the
    time [results] is closed; at that time every worker has returned;
    [s.rlm.Stop()] returns at most once and only after the close. *)
Theorem results_closed_exactly_once s rl c ctx urls w0 tr w :
  rlm s = Some rl → rl_good rl →
  ScrapeURLs s c ctx urls = inr w0 → run tr w0 = Some w →
  closes tr ≤ 1
  ∧ (closes tr = 1 ↔ closed (results w) = true)
  ∧ (closed (results w) = true → ∀ p, p ∈ workers w → p = WReturned)
  ∧ stops tr ≤ closes tr
  ∧ (stops tr = 1 ↔ sup w = SupReturned).
Proof.
  intros Hrl Hgood Hw0 Hrun.
  assert (wf (length urls) w0) as Hwf0.
  { eapply ScrapeURLs_wf; [|done]. intros rl' ?. by simplify_eq. }
  pose proof (run_wf _ _ _ _ Hwf0 Hrun) as Hwf.
  destruct (run_close_count _ _ _ _ Hwf0 Hrun) as [Hc Hs].
  assert (sup w0 = SupWait) as Hs0.
  { revert Hw0. unfold ScrapeURLs. rewrite Hrl. by intros [= <-]. }
  rewrite Hs0 in Hc, Hs. simpl in Hc, Hs.
  rewrite (wf_resclosed _ _ Hwf).
  split_and!.
  - lia.
  - destruct (sup w); simpl in *; split; (done || lia).
  - intros Hcl. apply (closed_after_workers (length urls)); [done|].
    by rewrite (wf_resclosed _ _ Hwf).
  - destruct (sup w); simpl in *; lia.
  - destruct (sup w); simpl in *; split; (done || lia).
Qed.

Lemma results_closed_exactly_once_witness :
  ∃ w, run cancelled_trace world_ab = Some w
    ∧ closes cancelled_trace = 1 ∧ closed (results w) = true.
Proof.
  assert (∃ w, run cancelled_trace world_ab = Some w) as [w Hrun]
    by (eexists; vm_compute; reflexivity).
  exists w. split; [exact Hrun|].
  destruct (results_closed_exactly_once scraper1 limiter5 [] 0 ["a"; "b"]%string
              world_ab cancelled_trace w eq_refl limiter5_good world_ab_started Hrun)
    as (_ & Hiff & _).
  split; [reflexivity|]. apply Hiff. reflexivity.
Defined.

(** ** After cancellation *)

(** With the context of the call cancelled, the seeder and every worker
    can always move until they have returned, so a world in which nothing
    moves has the stream closed and drained. *)
Lemma cancelled_quiescent n w :
  wf n w → is_done (ctx w) (cancelled w) = true → quiescent w →
  drained w = true ∧ seeder w = SeedReturned
  ∧ (∀ p, p ∈ workers w → p = WReturned)
  ∧ (sup w = SupStop ∨ sup w = SupReturned).
Proof.
  intros Hwf Hdone Hq. pose proof (wf_crashed _ _ Hwf) as Hcr.
  assert (seeder w = SeedReturned) as Hseed.
  { destruct (seeder w) as [[|u rest]|] eqn:Hs; [| |done].
    - specialize (Hq ASeedEnd eq_refl). unfold exec in Hq. rewrite Hcr, Hs in Hq.
      destruct (close (urlChan w)) eqn:Hcl; try done.
      unfold close in Hcl. by destruct (closed (urlChan w)).
    - specialize (Hq ASeedSend eq_refl). unfold exec in Hq. rewrite Hcr, Hs in Hq.
      by rewrite (wf_seeder_send _ _ _ _ Hwf Hs) in Hq. }
  assert (closed (urlChan w) = true) as Hucl.
  { by rewrite (wf_urlclosed _ _ Hwf), Hseed. }
  assert (∀ i p, workers w !! i = Some p → p = WReturned) as Hret.
  { intros i p Hi. destruct p; [..|done]; exfalso.
    - specialize (Hq (AWRecv i) eq_refl). unfold exec in Hq. rewrite Hcr, Hi in Hq.
      destruct (recv (urlChan w)) as [[[u|] ch]| |] eqn:Hr; try done.
      + apply recv_Blocked in Hr as [_ ?]. congruence.
      + by apply recv_not_Panic in Hr.
    - specialize (Hq (AWTokenDone i) eq_refl). unfold exec in Hq.
      by rewrite Hcr, Hi, Hdone in Hq.
    - specialize (Hq (AWScrape i) eq_refl). unfold exec in Hq.
      by rewrite Hcr, Hi in Hq.
    - specialize (Hq (AWSendDone i) eq_refl). unfold exec in Hq.
      by rewrite Hcr, Hi, Hdone in Hq. }
  assert (wg w = 0) as Hwg.
  { rewrite (wf_wg _ _ Hwf). clear -Hret. induction (workers w) as [|p l IH]; [done|].
    simpl. rewrite (Hret 0 p eq_refl). simpl. apply IH. intros i q Hi.
    by apply (Hret (S i)). }
  assert (sup w = SupStop ∨ sup w = SupReturned) as Hsup.
  { destruct (sup w) eqn:Hs; auto.
    - specialize (Hq ASupWait eq_refl). unfold exec in Hq. by rewrite Hcr, Hs, Hwg in Hq.
    - specialize (Hq ASupClose eq_refl). unfold exec in Hq. rewrite Hcr, Hs in Hq.
      unfold close in Hq. rewrite (wf_resclosed _ _ Hwf), Hs in Hq. done. }
  assert (closed (results w) = true) as Hrcl.
  { rewrite (wf_resclosed _ _ Hwf). by destruct Hsup as [->| ->]. }
  split_and!; try done.
  - destruct (drained w) eqn:Hd; [done|].
    destruct (buf (results w)) as [|r l] eqn:Hb.
    + specialize (Hq AReadClosed eq_refl). unfold exec in Hq. rewrite Hcr in Hq.
      unfold recv in Hq. by rewrite Hb, Hrcl, Hd in Hq.
    + specialize (Hq ARead eq_refl). unfold exec in Hq. rewrite Hcr in Hq.
      unfold recv in Hq. by rewrite Hb, Hd in Hq.
  - intros p [i Hi]%list_elem_of_lookup. by eapply Hret.
Qed.

(** [X7] Once the context passed to [ScrapeURLs] is cancelled, a call on
    a limiter made with arguments its goroutine accepts (nothing panics)
    winds down, whether the limiter still issues tokens or not: every run
    from there is finite, at its end the seeder and all workers have
    returned and the caller has seen the channel closed, having received
    at most as many Results as URLs; the scheduler reaches such an end. *)
Theorem cancellation_closes_the_stream s rl c cx urls w0 tr w :
  rlm s = Some rl → rl_good rl →
  ScrapeURLs s c cx urls = inr w0 → run tr w0 = Some w →
  is_done cx (cancelled w) = true →
  (∀ tr' w', run tr' w = Some w' →
     length tr' ≤ measure w
     ∧ crashed w' = false
     ∧ length (received w') ≤ length urls
     ∧ (quiescent w' →
          drained w' = true ∧ seeder w' = SeedReturned
          ∧ (∀ p, p ∈ workers w' → p = WReturned)
          ∧ closed (results w') = true))
  ∧ ∃ tr' w', schedule (measure w) w = (tr', w') ∧ run tr' w = Some w'
      ∧ drained w' = true ∧ seeder w' = SeedReturned
      ∧ (∀ p, p ∈ workers w' → p = WReturned).
Proof.
  intros Hrl Hgood Hw0 Hrun Hdone.
  assert (wf (length urls) w) as Hwf.
  { eapply run_wf; [|done]. eapply ScrapeURLs_wf; [|done].
    intros rl' ?. by simplify_eq. }
  assert (ctx w = cx) as Hctx.
  { apply run_fixed in Hrun as (-> & _). revert Hw0. unfold ScrapeURLs.
    rewrite Hrl. by intros [= <-]. }
  assert (∀ tr' w', run tr' w = Some w' →
    wf (length urls) w' ∧ is_done (ctx w') (cancelled w') = true) as Hlater.
  { intros tr' w' Hrun'. split; [by eapply run_wf|].
    apply run_fixed in Hrun' as (-> & _ & _ & Hmono). apply Hmono. by rewrite Hctx. }
  split.
  - intros tr' w' Hrun'. destruct (Hlater _ _ Hrun') as [Hwf' Hdone'].
    split_and!.
    + apply run_measure in Hrun'. lia.
    + apply Hwf'.
    + pose proof (wf_count _ _ Hwf') as Hc. unfold in_results in Hc.
      rewrite !length_app in Hc. lia.
    + intros Hq.
      destruct (cancelled_quiescent _ _ Hwf' Hdone' Hq) as (? & ? & ? & Hsup).
      split_and!; try done. rewrite (wf_resclosed _ _ Hwf').
      by destruct Hsup as [->| ->].
  - destruct (schedule (measure w) w) as [tr' w'] eqn:Hs. exists tr', w'.
    destruct (schedule_run _ _ _ _ Hs) as (Hrun' & _ & Hq).
    destruct (Hlater _ _ Hrun') as [Hwf' Hdone'].
    destruct (cancelled_quiescent _ _ Hwf' Hdone' (Hq (le_n _))) as (? & ? & ? & _).
    by split_and!.
Qed.

Lemma cancellation_closes_the_stream_witness :
  ∃ w tr' w', run [ATicker TkNewTicker; ASeedSend; ACancel 0] world_ab = Some w
    ∧ schedule (measure w) w = (tr', w')
    ∧ run tr' w = Some w' ∧ drained w' = true ∧ seeder w' = SeedReturned.
Proof.
  assert (∃ w, run [ATicker TkNewTicker; ASeedSend; ACancel 0] world_ab = Some w
               ∧ is_done 0 (cancelled w) = true) as (w & Hrun & Hdone)
    by (eexists; split; [vm_compute; reflexivity|reflexivity]).
  destruct (cancellation_closes_the_stream scraper1 limiter5 [] 0 ["a"; "b"]%string
              world_ab [ATicker TkNewTicker; ASeedSend; ACancel 0] w
              eq_refl limiter5_good world_ab_started Hrun Hdone)
    as (_ & tr' & w' & Hs & Hrun' & Hdr & Hseed & _).
  exists w, tr', w'. split; [exact Hrun|]. split; [exact Hs|].
  split; [exact Hrun'|]. split; [exact Hdr|exact Hseed].
Defined.

(** ** No workers *)

Lemma idle_step a w w' :
  workers w = [] → buf (results w) = [] → received w = [] →
  exec a w = Some w' →
  workers w' = [] ∧ buf (results w') = [] ∧ received w' = [].
Proof.
  intros Hw Hb Hr. unfold exec, lift_chan, recv, close. rewrite Hw, Hb.
  destruct (crashed w); [done|].
  destruct a; exec_cases w; simpl; try done; intros [= <-]; simpl;
    rewrite ?Hw, ?Hb, ?Hr; try done.
Qed.

(** [X8] With [maxWorkers <= 0] no worker is started, whatever limiter
    the scraper has: the URLs are queued and never taken, [scrapeFunc] is
    never called, nothing is sent on [results] and the caller receives
    nothing.  If the limiter was made with arguments its goroutine
    accepts (so that nothing panics), then once nothing can move any more
    the channel is closed and the caller has seen the empty stream end. *)
Theorem no_workers_no_results s rl c cx urls w0 tr w :
  rlm s = Some rl → (maxWorkers s ≤ 0)%Z →
  ScrapeURLs s c cx urls = inr w0 → run tr w0 = Some w →
  workers w = [] ∧ received w = [] ∧ buf (results w) = []
  ∧ ¬ (∃ i, In (AWScrape i) tr)
  ∧ (rl_good rl → quiescent w → drained w = true ∧ closed (results w) = true).
Proof.
  intros Hrl Hmw Hw0 Hrun.
  assert (workers w0 = [] ∧ buf (results w0) = [] ∧ received w0 = []) as Hidle0.
  { revert Hw0. unfold ScrapeURLs. rewrite Hrl. intros [= <-]. simpl.
    by replace (Z.to_nat (maxWorkers s)) with 0 by lia. }
  assert (∀ tr w0 w, workers w0 = [] ∧ buf (results w0) = [] ∧ received w0 = [] →
    run tr w0 = Some w →
    (workers w = [] ∧ buf (results w) = [] ∧ received w = [])
    ∧ ¬ (∃ i, In (AWScrape i) tr)) as Hidle.
  { clear. induction tr as [|a tr IH]; intros w0 w (Hw & Hb & Hr); simpl.
    - intros [= <-]. split; [done|]. by intros [i []].
    - destruct (exec a w0) as [w1|] eqn:Ha; [|done]. intros Hrun.
      pose proof (idle_step _ _ _ Hw Hb Hr Ha) as Hidle1.
      destruct (IH _ _ Hidle1 Hrun) as [Hidle Hno]. split; [done|].
      intros [i [->|Hin]]; [|by apply Hno; exists i].
      unfold exec in Ha. rewrite Hw in Ha. by destruct (crashed w0). }
  destruct (Hidle _ _ _ Hidle0 Hrun) as [(Hw & Hr & Hb) Hno].
  split_and!; try done.
  intros Hgood Hq.
  assert (wf (length urls) w) as Hwf.
  { eapply run_wf; [|done]. eapply ScrapeURLs_wf; [|done].
    intros rl' ?. by simplify_eq. }
  pose proof (wf_crashed _ _ Hwf) as Hcr.
  assert (wg w = 0) as Hwg by (by rewrite (wf_wg _ _ Hwf), Hw).
  assert (closed (results w) = true) as Hrcl.
  { rewrite (wf_resclosed _ _ Hwf). destruct (sup w) eqn:Hs; try done.
    - specialize (Hq ASupWait eq_refl). unfold exec in Hq. by rewrite Hcr, Hs, Hwg in Hq.
    - specialize (Hq ASupClose eq_refl). unfold exec in Hq. rewrite Hcr, Hs in Hq.
      unfold close in Hq. rewrite (wf_resclosed _ _ Hwf), Hs in Hq. done. }
  split; [|done]. destruct (drained w) eqn:Hd; [done|].
  specialize (Hq AReadClosed eq_refl). unfold exec in Hq. rewrite Hcr in Hq.
  unfold recv in Hq. by rewrite Hr, Hrcl, Hd in Hq.
Qed.

Lemma no_workers_no_results_witness :
  ∃ w0 w,
    ScrapeURLs (MkScraper net_ok (Some limiter5) 0 (scrapeURL net_ok)) [] 0
      ["a"; "b"]%string = inr w0
    ∧ run [ATicker TkNewTicker; ASeedSend; ASeedSend; ASeedEnd;
           ASupWait; ASupClose; ASupStop; AReadClosed] w0 = Some w
    ∧ workers w = [] ∧ received w = []
    ∧ drained w = true ∧ closed (results w) = true.
Proof.
  eexists.
  assert (∃ w, run [ATicker TkNewTicker; ASeedSend; ASeedSend; ASeedEnd;
                    ASupWait; ASupClose; ASupStop; AReadClosed]
                 (MkWorld [] 0 (scrapeURL net_ok) limiter5 (make 2) (make 2)
                    (SeedLoop ["a"; "b"]%string) [] 0 SupWait [] false false)
               = Some w
               ∧ ∀ a, a ∈ candidates w → exec a w = None) as (w & Hrun & Hcand).
  { eexists. split; [vm_compute; reflexivity|]. intros a Ha%list_elem_of_In.
    vm_compute in Ha.
    repeat (destruct Ha as [<-|Ha]; [reflexivity|]). destruct Ha. }
  exists w. split; [reflexivity|]. split; [exact Hrun|].
  destruct (no_workers_no_results
              (MkScraper net_ok (Some limiter5) 0 (scrapeURL net_ok)) limiter5 [] 0
              ["a"; "b"]%string _ _ w eq_refl (Z.le_refl 0) eq_refl Hrun)
    as (Hw & Hrec & _ & _ & Hend).
  assert (quiescent w) as Hq.
  { intros a Hnc. destruct (exec a w) as [w'|] eqn:He; [|done].
    pose proof (candidates_complete w a Hnc ltac:(by eexists)) as Hin.
    by rewrite (Hcand _ Hin) in He. }
  destruct (Hend limiter5_good Hq) as [Hdr Hcl].
  split; [exact Hw|]. split; [exact Hrec|]. split; [exact Hdr|exact Hcl].
Defined.

(** ** Each URL at most once *)

Ltac flow_tac :=
  unfold in_urls, in_results in *; simpl in *;
  repeat match goal with
  | H : seeder _ = _ |- _ => rewrite ?H in *; clear H
  | H : buf _ = _ :: _ |- _ => rewrite ?H in *; clear H
  end;
  repeat match goal with
  | H : <[_ := _]> _ ≡ₚ _ |- _ => rewrite ?H; clear H
  end;
  repeat match goal with
  | H : workers _ ≡ₚ _ |- _ => rewrite ?H in *; clear H
  end;
  rewrite ?bind_cons in *; simpl in *.

(** What one action does to the URLs and Results in flight: it moves
    them along, drops some, or turns one URL into its Result. *)
Lemma exec_flow a w w' :
  exec a w = Some w' →
  work w' = work w
  ∧ ((in_urls w' ⊆+ in_urls w ∧ in_results w' ⊆+ in_results w)
     ∨ ∃ u, in_urls w ≡ₚ u :: in_urls w'
            ∧ in_results w'
              ≡ₚ work w (is_done (ctx w) (cancelled w)) u :: in_results w).
Proof.
  assert (∀ i p, workers w !! i = Some p →
    work (worker_return w i) = work w
    ∧ in_urls (worker_return w i) ⊆+ in_urls w
    ∧ in_results (worker_return w i) ⊆+ in_results w) as Hret.
  { intros i p Hi. unfold worker_return. destruct (wg w); [done|].
    destruct (insert_split _ _ _ WReturned Hi) as (rest & Hw1 & Hw2).
    split; [done|]. split; flow_tac; solve_submseteq. }
  unfold exec. destruct (crashed w); [done|].
  destruct a.
  - destruct (is_done c _); [done|]. destruct (_ || _); [|done].
    intros [= <-]. split; [done|]. by left.
  - destruct (ticker_exec _ _ _); simpl; try done; intros [= <-];
      (split; [done|]; by left).
  - destruct (seeder w) as [[|u rest]|] eqn:Hs; try done.
    destruct (send u (urlChan w)) eqn:Hsend; simpl; try done; intros [= <-];
      (split; [done|]); left; [|done].
    apply send_Ready in Hsend as (_ & _ & ->).
    split; flow_tac; solve_submseteq.
  - destruct (seeder w) as [[|u rest]|] eqn:Hs; try done.
    case_match; [|done].
    destruct (close (urlChan w)) eqn:Hcl; simpl; try done; intros [= <-];
      (split; [done|]); left; [|done].
    apply close_Ready in Hcl as (_ & ->).
    split; flow_tac; solve_submseteq.
  - destruct (seeder w) as [[|u rest]|] eqn:Hs; try done.
    destruct (close (urlChan w)) eqn:Hcl; simpl; try done; intros [= <-];
      (split; [done|]); left; [|done].
    apply close_Ready in Hcl as (_ & ->).
    split; flow_tac; solve_submseteq.
  - destruct (workers w !! i) as [[]|] eqn:Hi; try done.
    destruct (recv (urlChan w)) as [[[u|] ch]| |] eqn:Hr'; try done; intros [= <-].
    + apply recv_Some in Hr' as (Hb & _ & _).
      destruct (insert_split _ _ _ (WSelectToken u) Hi) as (rest & Hw1 & Hw2).
      split; [done|]. left. split; flow_tac; solve_submseteq.
    + destruct (Hret _ _ Hi) as (? & ? & ?). split; [done|]. by left.
  - destruct (workers w !! i) as [[]|] eqn:Hi; try done.
    destruct (take_token (limiter w)) eqn:Ht; [|done]. intros [= <-].
    destruct (insert_split _ _ _ (WScrape url) Hi) as (rest & Hw1 & Hw2).
    split; [done|]. left. split; flow_tac; solve_submseteq.
  - destruct (workers w !! i) as [[]|] eqn:Hi; try done.
    case_match; [|done]. intros [= <-].
    destruct (Hret _ _ Hi) as (? & ? & ?). split; [done|]. by left.
  - destruct (workers w !! i) as [[]|] eqn:Hi; try done. intros [= <-].
    set (b := is_done (ctx w) (cancelled w)).
    destruct (insert_split _ _ _ (WSelectSend (work w b url)) Hi) as (rest & Hw1 & Hw2).
    split; [done|]. right. exists url. split; flow_tac; solve_Permutation.
  - destruct (workers w !! i) as [[]|] eqn:Hi; try done.
    destruct (send r (results w)) eqn:Hsend; simpl; try done; intros [= <-];
      (split; [done|]); left; [|done].
    apply send_Ready in Hsend as (_ & _ & ->).
    destruct (insert_split _ _ _ WRange Hi) as (rest & Hw1 & Hw2).
    split; flow_tac; solve_submseteq.
  - destruct (workers w !! i) as [[]|] eqn:Hi; try done.
    case_match; [|done]. intros [= <-].
    destruct (Hret _ _ Hi) as (? & ? & ?). split; [done|]. by left.
  - destruct (sup w), (wg w); try done. intros [= <-]. split; [done|]. by left.
  - destruct (sup w); try done.
    destruct (close (results w)) eqn:Hcl; simpl; try done; intros [= <-];
      (split; [done|]); left; [|done].
    by apply close_Ready in Hcl as (_ & ->).
  - destruct (sup w); try done. destruct (Stop _); [|done]. intros [= <-].
    split; [done|]. by left.
  - destruct (recv (results w)) as [[[r|] ch]| |] eqn:Hr'; try done.
    destruct (drained w); [done|]. intros [= <-].
    apply recv_Some in Hr' as (Hb & _ & _).
    split; [done|]. left. split; flow_tac; solve_submseteq.
  - destruct (recv (results w)) as [[[r|] ch]| |] eqn:Hr'; try done.
    destruct (drained w); [done|]. intros [= <-]. split; [done|]. by left.
Qed.

Lemma exec_once f urls a w w' :
  once f urls w → exec a w = Some w' → once f urls w'.
Proof.
  intros (Hwork & ps & Hres & Hurls) Ha.
  apply exec_flow in Ha as [Hw' [[Hu Hr]|(u & Hu & Hr)]].
  - split; [congruence|]. exists ps. split.
    + by transitivity (in_results w).
    + transitivity (in_urls w ++ ps.*2); [|done]. by apply submseteq_app.
  - split; [congruence|].
    exists ((is_done (ctx w) (cancelled w), u) :: ps). split.
    + rewrite Hr, fmap_cons. unfold scraped at 1. simpl. rewrite Hwork.
      by apply submseteq_skip.
    + rewrite fmap_cons. simpl. rewrite Hu in Hurls.
      rewrite <- Hurls. solve_submseteq.
Qed.

Lemma run_once f urls tr w w' :
  once f urls w → run tr w = Some w' → once f urls w'.
Proof.
  revert w. induction tr as [|a tr IH]; intros w Ho; simpl.
  - by intros [= <-].
  - destruct (exec a w) as [w1|] eqn:Ha; [|done]. apply IH. by eapply exec_once.
Qed.

Lemma submseteq_fmap_inv {A B} (g : A → B) (l : list B) (ps : list A) :
  l ⊆+ g <$> ps → ∃ ps', ps' ⊆+ ps ∧ l ≡ₚ g <$> ps'.
Proof.
  revert l. induction ps as [|p ps IH]; intros l; simpl.
  - intros ->%submseteq_nil_r. by exists [].
  - intros [Hl|(l' & Hl & Hl')]%submseteq_cons_r.
    + destruct (IH _ Hl) as (ps' & Hps & Hperm). exists ps'. split; [|done].
      by apply submseteq_cons.
    + destruct (IH _ Hl') as (ps' & Hps & Hperm). exists (p :: ps'). split.
      * by apply submseteq_skip.
      * by rewrite Hl, Hperm.
Qed.

(** [X9] Cancelled or not, no URL is scraped twice: the Results the
    caller has received are the Results of calls of the scrape function
    on URLs that form part of the submitted list, each occurrence of a
    URL in the list used at most once. *)
Theorem no_url_is_scraped_twice s c cx urls w0 tr w :
  ScrapeURLs s c cx urls = inr w0 → run tr w0 = Some w →
  ∃ ps, received w ≡ₚ scraped (scrapeFunc s) <$> ps ∧ ps.*2 ⊆+ urls.
Proof.
  intros Hw0 Hrun.
  assert (once (scrapeFunc s) urls w0) as Ho0.
  { revert Hw0. unfold ScrapeURLs. destruct (rlm s); [|done]. intros [= <-].
    split; [done|]. exists []. unfold in_urls, in_results. simpl.
    rewrite !replicate_bind_nil by done. simpl. by rewrite !app_nil_r. }
  destruct (run_once _ _ _ _ _ Ho0 Hrun) as (_ & ps & Hres & Hurls).
  assert (received w ⊆+ scraped (scrapeFunc s) <$> ps) as Hrec.
  { rewrite <- Hres. unfold in_results. solve_submseteq. }
  apply submseteq_fmap_inv in Hrec as (ps' & Hps & Hperm).
  exists ps'. split; [done|]. rewrite <- Hurls.
  transitivity (ps.*2); [by apply fmap_submseteq|]. solve_submseteq.
Qed.

Lemma no_url_is_scraped_twice_witness :
  ∃ w ps, run cancelled_trace world_ab = Some w
    ∧ received w ≡ₚ scraped (scrapeURL net_ok) <$> ps
    ∧ ps.*2 ⊆+ ["a"; "b"]%string.
Proof.
  assert (∃ w, run cancelled_trace world_ab = Some w) as [w Hrun]
    by (eexists; vm_compute; reflexivity).
  destruct (no_url_is_scraped_twice scraper1 [] 0 ["a"; "b"]%string world_ab
              cancelled_trace w world_ab_started Hrun) as (ps & Hperm & Hsub).
  exists w, ps. split; [exact Hrun|]. split; [exact Hperm|exact Hsub].
Defined.

(** ** One token per call *)

Lemma exec_gate a w w' :
  rl_ok (limiter w) → exec a w = Some w' →
  rl_ok (limiter w')
  ∧ count_of is_scrape [a] + sum_list_with scraping (workers w')
    = count_of is_token [a] + sum_list_with scraping (workers w)
  ∧ count_of is_token [a] + tokens (limiter w')
    = count_of is_token_send [a] + tokens (limiter w).
Proof.
  intros Hok.
  assert (∀ i p, workers w !! i = Some p → scraping p = 0 →
    limiter (worker_return w i) = limiter w
    ∧ sum_list_with scraping (workers (worker_return w i))
      = sum_list_with scraping (workers w)) as Hret.
  { intros i p Hi Hp. unfold worker_return. destruct (wg w); [done|]. simpl.
    pose proof (sum_insert scraping _ _ _ WReturned Hi). simpl in *.
    split; [done|lia]. }
  unfold exec, count_of. destruct (crashed w); [done|].
  destruct a; simpl.
  - destruct (is_done c _); [done|]. destruct (_ || _); [|done]. by intros [= <-].
  - destruct (ticker_exec _ _ _) eqn:Ht; simpl; try done; intros [= <-]; simpl.
    + pose proof Ht as (Hok' & _)%ticker_exec_ok; [|done].
      split; [done|]. split; [done|].
      revert Ht. unfold ticker_exec, tokens.
      destruct t, (pc (limiter w)) eqn:Hpc; try done.
      * destruct (tick_period _ _); [|done]. case_match; [done|]. by intros [= <-].
      * by intros [= <-].
      * destruct (send tt _) eqn:Hs; try done.
        apply send_Ready in Hs as (? & ? & ->). intros [= <-]. simpl.
        rewrite length_app. simpl. lia.
      * case_match; [|done]. by intros [= <-].
    + split; [done|]. split; [done|]. destruct t; try done.
      unfold ticker_exec in Ht. destruct (pc _); try done.
      destruct (send tt _) eqn:Hs; try done.
      apply send_Panic in Hs. destruct Hok as (_ & _ & ?). congruence.
  - destruct (seeder w) as [[|u rest]|]; try done.
    destruct (send _ _); simpl; try done; by intros [= <-].
  - destruct (seeder w) as [[|u rest]|]; try done. case_match; [|done].
    destruct (close _); simpl; try done; by intros [= <-].
  - destruct (seeder w) as [[|u rest]|]; try done.
    destruct (close _); simpl; try done; by intros [= <-].
  - destruct (workers w !! i) as [[]|] eqn:Hi; try done.
    destruct (recv _) as [[[u|] ch]| |]; try done; intros [= <-]; simpl.
    + pose proof (sum_insert scraping _ _ _ (WSelectToken u) Hi). simpl in *.
      split; [done|]. split; [lia|done].
    + destruct (Hret _ _ Hi eq_refl) as [-> ->]. by split_and!.
  - destruct (workers w !! i) as [[]|] eqn:Hi; try done.
    destruct (take_token (limiter w)) eqn:Ht; [|done]. intros [= <-]. simpl.
    apply take_token_ok in Ht as (? & _ & _ & _ & _ & Htok); [|done].
    pose proof (sum_insert scraping _ _ _ (WScrape url) Hi). simpl in *.
    unfold tokens. split; [done|]. split; lia.
  - destruct (workers w !! i) as [[]|] eqn:Hi; try done. case_match; [|done].
    intros [= <-]. destruct (Hret _ _ Hi eq_refl) as [-> ->]. by split_and!.
  - destruct (workers w !! i) as [[]|] eqn:Hi; try done. intros [= <-]. simpl.
    pose proof (sum_insert scraping _ _ _
      (WSelectSend (work w (is_done (ctx w) (cancelled w)) url)) Hi). simpl in *.
    split; [done|]. split; [lia|done].
  - destruct (workers w !! i) as [[]|] eqn:Hi; try done.
    destruct (send _ _); simpl; try done; intros [= <-]; simpl; [|done].
    pose proof (sum_insert scraping _ _ _ WRange Hi). simpl in *.
    split; [done|]. split; [lia|done].
  - destruct (workers w !! i) as [[]|] eqn:Hi; try done. case_match; [|done].
    intros [= <-]. destruct (Hret _ _ Hi eq_refl) as [-> ->]. by split_and!.
  - destruct (sup w), (wg w); try done. by intros [= <-].
  - destruct (sup w); try done.
    destruct (close _); simpl; try done; by intros [= <-].
  - destruct (sup w); try done. destruct (Stop _) eqn:Hst; [|done].
    intros [= <-]. simpl. pose proof Hst as (? & _)%Stop_ok; [|done].
    split; [done|]. split; [done|].
    unfold Stop in Hst. destruct (pc _); try done. by injection Hst as <-.
  - destruct (recv _) as [[[r|] ch]| |]; try done.
    destruct (drained w); [done|]. by intros [= <-].
  - destruct (recv _) as [[[r|] ch]| |]; try done.
    destruct (drained w); [done|]. by intros [= <-].
Qed.

Lemma run_gate tr w w' :
  rl_ok (limiter w) → run tr w = Some w' →
  rl_ok (limiter w')
  ∧ count_of is_scrape tr + sum_list_with scraping (workers w')
    = count_of is_token tr + sum_list_with scraping (workers w)
  ∧ count_of is_token tr + tokens (limiter w')
    = count_of is_token_send tr + tokens (limiter w).
Proof.
  revert w. induction tr as [|a tr IH]; intros w Hok; simpl.
  - by intros [= <-].
  - destruct (exec a w) as [w1|] eqn:Ha; [|done]. intros Hrun.
    destruct (exec_gate _ _ _ Hok Ha) as (Hok1 & H1 & H2).
    destruct (IH _ Hok1 Hrun) as (Hok' & H3 & H4).
    split; [done|]. unfold count_of in *. simpl in *. lia.
Qed.

(** [X10] The scrape function is called only with a token: in every run,
    cancelled or not, the number of calls made so far is at most the
    number of tokens workers have taken, and each token taken was in the
    channel at the start or has been sent by the limiter's goroutine since;
    so there are never more calls than the tokens the limiter had plus
    those it has sent. *)
Theorem scrape_calls_bounded_by_tokens s rl c cx urls w0 tr w :
  rlm s = Some rl → rl_ok rl →
  ScrapeURLs s c cx urls = inr w0 → run tr w0 = Some w →
  count_of is_scrape tr + sum_list_with scraping (workers w) = count_of is_token tr
  ∧ count_of is_token tr + tokens (limiter w)
    = tokens rl + count_of is_token_send tr
  ∧ count_of is_scrape tr ≤ tokens rl + count_of is_token_send tr.
Proof.
  intros Hrl Hok Hw0 Hrun.
  assert (limiter w0 = rl ∧ sum_list_with scraping (workers w0) = 0) as [Hl Hs].
  { revert Hw0. unfold ScrapeURLs. rewrite Hrl. intros [= <-]. simpl.
    split; [done|]. generalize (Z.to_nat (maxWorkers s)).
    intros k. induction k as [|k IH]; [done|]. simpl. exact IH. }
  destruct (run_gate tr w0 w) as (_ & H1 & H2); [by rewrite Hl|done|].
  rewrite Hl, Hs in *. lia.
Qed.

Lemma scrape_calls_bounded_by_tokens_witness :
  ∃ w, run cancelled_trace world_ab = Some w
    ∧ count_of is_scrape cancelled_trace = 1
    ∧ count_of is_scrape cancelled_trace
      ≤ tokens limiter5 + count_of is_token_send cancelled_trace.
Proof.
  assert (∃ w, run cancelled_trace world_ab = Some w) as [w Hrun]
    by (eexists; vm_compute; reflexivity).
  exists w. split; [exact Hrun|]. split; [reflexivity|].
  exact (proj2 (proj2 (scrape_calls_bounded_by_tokens scraper1 limiter5 [] 0
    ["a"; "b"]%string world_ab cancelled_trace w eq_refl (proj1 limiter5_good)
    world_ab_started Hrun))).
Defined.

(** ** One worker keeps the order *)

Lemma exec_pipeline f urls a w w' :
  steady f urls w → length (workers w) = 1 → is_cancel a = false →
  exec a w = Some w' → pipeline f w' = pipeline f w.
Proof.
  intros [Hwf Hwork Hctx _ _ _ _ _] Hlen Hnc.
  destruct (workers w) as [|p [|]] eqn:Hws; try done.
  unfold exec, lift_chan, pipeline, worker_return, send, recv, close.
  rewrite (wf_crashed _ _ Hwf), Hctx, Hws, Hwork.
  destruct a as [c|t| | | |[|i]|[|i]|[|i]|[|i]|[|i]|[|i]| | | | |]; try done; simpl;
    repeat match goal with
    | |- context [match seeder w with _ => _ end] =>
        destruct (seeder w) as [[|? ?]|] eqn:?
    | |- context [match p with _ => _ end] => destruct p
    | |- context [match sup w with _ => _ end] => destruct (sup w)
    | |- context [match wg w with _ => _ end] => destruct (wg w)
    | |- context [match buf ?c with _ => _ end] => destruct (buf c) eqn:?
    | |- context [match ticker_exec ?t ?c ?r with _ => _ end] =>
        destruct (ticker_exec t c r)
    | |- context [match take_token ?r with _ => _ end] => destruct (take_token r)
    | |- context [match Stop ?r with _ => _ end] => destruct (Stop r)
    | |- context [if ?b then _ else _] => destruct b
    end; simpl; try done; intros [= <-]; simpl; rewrite ?Hws; simpl;
    repeat match goal with
    | H : seeder w = _ |- _ => rewrite !H
    | H : buf _ = _ |- _ => rewrite !H
    end; simpl;
    rewrite ?fmap_app, <- ?app_assoc; simpl; try done.
Qed.

Lemma run_pipeline f urls tr w w' :
  steady f urls w → length (workers w) = 1 → no_cancel tr = true →
  run tr w = Some w' → pipeline f w' = pipeline f w.
Proof.
  revert w. induction tr as [|a tr IH]; intros w Hst Hlen; simpl.
  - by intros _ [= <-].
  - intros [Ha Htr]%andb_true_iff. destruct (exec a w) as [w1|] eqn:He; [|done].
    intros Hrun. assert (is_cancel a = false) as Hnc by (by destruct (is_cancel a)).
    rewrite <- (exec_pipeline _ _ _ _ _ Hst Hlen Hnc He). apply IH; [| |done..].
    + by eapply exec_steady.
    + apply exec_fixed in He as (_ & _ & -> & _). done.
Qed.

(** [X11] With [maxWorkers = 1], a running limiter and no cancellation, the
    Results arrive in the order of the URLs: what the caller has received
    is at every moment a prefix of the list of Results of the URLs in
    submission order, and the whole list once it has seen the channel
    closed. *)
Theorem one_worker_keeps_order s rl c cx urls :
  rlm s = Some rl → limiter_running c rl → is_done cx c = false →
  maxWorkers s = 1%Z →
  ∃ w0, ScrapeURLs s c cx urls = inr w0
    ∧ ∀ tr w, no_cancel tr = true → run tr w0 = Some w →
        received w `prefix_of` (scrapeFunc s false <$> urls)
        ∧ (drained w = true → received w = scrapeFunc s false <$> urls).
Proof.
  intros Hrl (Hgood & Hpc & Hrlctx) Hctx Hmw.
  destruct (ScrapeURLs s c cx urls) as [e|w0] eqn:Hw0.
  { unfold ScrapeURLs in Hw0. by rewrite Hrl in Hw0. }
  pose proof (ScrapeURLs_steady _ _ _ _ _ _ Hrl Hgood Hpc Hctx Hrlctx
                ltac:(lia) Hw0) as Hst0.
  assert (length (workers w0) = 1 ∧ pipeline (scrapeFunc s) w0 = scrapeFunc s false <$> urls)
    as [Hlen Hpipe].
  { revert Hw0. unfold ScrapeURLs. rewrite Hrl, Hmw. by intros [= <-]. }
  exists w0. split; [done|]. intros tr w Hnc Hrun.
  pose proof (run_pipeline _ _ _ _ _ Hst0 Hlen Hnc Hrun) as Hp.
  rewrite Hpipe in Hp.
  assert (received w `prefix_of` scrapeFunc s false <$> urls) as Hpre.
  { rewrite <- Hp. unfold pipeline. by eexists. }
  split; [done|]. intros Hdr.
  pose proof (run_steady _ _ _ _ _ Hst0 Hnc Hrun) as Hst.
  pose proof (steady_drained _ _ _ Hst Hdr) as Hperm.
  apply prefix_length_eq; [done|]. by rewrite Hperm.
Qed.

Lemma one_worker_keeps_order_witness :
  ∃ w0 w, started 1 second 5 ["a"; "b"]%string = Some w0
    ∧ run [ATicker TkNewTicker; ASeedSend; ASeedSend; ASeedEnd;
           ATicker TkTick; ATicker TkSend;
           AWRecv 0; AWToken 0; AWScrape 0; AWSend 0; ARead] w0 = Some w
    ∧ received w = [scrapeURL net_ok false "a"%string]
    ∧ received w
      `prefix_of` (scrapeURL net_ok false <$> ["a"; "b"]%string).
Proof.
  eexists _, _. split; [reflexivity|]. split; [vm_compute; reflexivity|].
  split; [reflexivity|].
  destruct (one_worker_keeps_order
              (MkScraper net_ok (Some (MkRateLimiter (make 5) 0 second 5 TStart))
                 1 (scrapeURL net_ok))
              (MkRateLimiter (make 5) 0 second 5 TStart) [] 0
              ["a"; "b"]%string) as (w0 & Hw0 & Hall).
  - reflexivity.
  - repeat split; simpl; try done; unfold second; lia.
  - reflexivity.
  - reflexivity.
  - injection Hw0 as <-.
    refine (proj1 (Hall [ATicker TkNewTicker; ASeedSend; ASeedSend; ASeedEnd;
           ATicker TkTick; ATicker TkSend;
           AWRecv 0; AWToken 0; AWScrape 0; AWSend 0; ARead] _ eq_refl _)).
    vm_compute. reflexivity.
Defined.

(** ** A scrape function that fails *)



(** ** The limiter after Stop *)

Lemma Stop_returned_insert cs i cl rest lg r :
  cs !! i = Some cl → log cl = lg →
  Stop_returned (<[i := MkCaller rest (r :: lg)]> cs) →
  r = RetStop ∨ Stop_returned cs.
Proof.
  intros Hi Hlg. unfold Stop_returned.
  destruct (insert_split cs i cl (MkCaller rest (r :: lg)) Hi) as (others & H1 & H2).
  rewrite H2, H1, !Exists_cons. simpl. rewrite elem_of_cons, Hlg.
  intros [[->|?]|?]; auto.
Qed.

Lemma rl_exec_returned a w w' :
  pc (rw_limiter w) = TReturned → rl_exec a w = Some w' →
  pc (rw_limiter w') = TReturned ∧ tokens_sent [a] = 0.
Proof.
  intros Hpc. unfold rl_exec. destruct (rw_crashed w); [done|].
  destruct a.
  - destruct (is_done c _); [done|]. by intros [= <-].
  - by rewrite ticker_exec_returned.
  - destruct (rw_callers w !! i) as [[[|[ctx|] rest] lg]|]; try done.
    unfold Wait, take_token.
    destruct br; [destruct (recv _) as [[? ch]| |]|destruct (is_done _ _)];
      try done; by intros [= <-].
  - destruct (rw_callers w !! i) as [[[|[ctx|] rest] lg]|]; try done.
    unfold Stop. by rewrite Hpc.
Qed.

Lemma rl_exec_Stop_returned a w w' :
  (Stop_returned (rw_callers w) → pc (rw_limiter w) = TReturned) →
  rl_exec a w = Some w' →
  Stop_returned (rw_callers w') → pc (rw_limiter w') = TReturned.
Proof.
  intros Hinv Ha Hst.
  assert (pc (rw_limiter w) = TReturned ∨ pc (rw_limiter w) ≠ TReturned) as [Hpc|Hpc]
    by (destruct (pc (rw_limiter w)); auto).
  { by destruct (rl_exec_returned _ _ _ Hpc Ha). }
  revert Ha Hst. unfold rl_exec. destruct (rw_crashed w); [done|].
  destruct a.
  - destruct (is_done c _); [done|]. intros [= <-]. simpl. tauto.
  - destruct (ticker_exec _ _ _); try done; intros [= <-]; simpl; tauto.
  - destruct (rw_callers w !! i) as [[[|[ctx|] rest] lg]|] eqn:Hi; try done.
    destruct (Wait _ _ _ _) as [[ok rl]|]; [|done]. intros [= <-]. simpl.
    intros [?|?]%(Stop_returned_insert _ _ _ _ _ _ Hi eq_refl); [done|tauto].
  - destruct (rw_callers w !! i) as [[[|[ctx|] rest] lg]|] eqn:Hi; try done.
    unfold Stop. destruct (pc _); try done. by intros [= <-].
Qed.

Lemma rl_run_Stop_returned tr w w' :
  (Stop_returned (rw_callers w) → pc (rw_limiter w) = TReturned) →
  rl_run tr w = Some w' →
  Stop_returned (rw_callers w') → pc (rw_limiter w') = TReturned.
Proof.
  revert w. induction tr as [|a tr IH]; intros w Hinv; simpl.
  - by intros [= <-].
  - destruct (rl_exec a w) as [w1|] eqn:Ha; [|done]. apply IH.
    by eapply rl_exec_Stop_returned.
Qed.

Lemma rl_run_returned tr w w' :
  pc (rw_limiter w) = TReturned → rl_run tr w = Some w' →
  pc (rw_limiter w') = TReturned ∧ tokens_sent tr = 0.
Proof.
  revert w. induction tr as [|a tr IH]; intros w Hpc; simpl.
  - by intros [= <-].
  - destruct (rl_exec a w) as [w1|] eqn:Ha; [|done]. intros Hrun.
    destruct (rl_exec_returned _ _ _ Hpc Ha) as [Hpc1 Hs1].
    destruct (IH _ Hpc1 Hrun) as [Hpc' Hs]. split; [done|].
    rewrite tokens_sent_cons. lia.
Qed.

(** [X13] After a [Stop] has returned the limiter issues no token: its
    goroutine has returned, no send into the token channel happens in
    any continuation, and the tokens left in the channel can still be
    taken by [Wait], each by one caller, but are not replaced. *)
Theorem no_token_after_Stop cx ts iv rl c callers tr1 w1 tr2 w2 :
  NewRateLimiter cx ts iv = Some rl →
  Forall (λ cl, log cl = []) callers →
  rl_run tr1 (MkRLWorld c rl callers false) = Some w1 →
  Stop_returned (rw_callers w1) →
  rl_run tr2 w1 = Some w2 →
  pc (rw_limiter w2) = TReturned
  ∧ tokens_sent tr2 = 0
  ∧ tokens (rw_limiter w2) + acquired (rw_callers w2)
    = tokens (rw_limiter w1) + acquired (rw_callers w1).
Proof.
  intros Hnew Hlogs Hrun1 Hst Hrun2.
  apply NewRateLimiter_ok in Hnew as (Hok0 & _).
  pose proof (rl_run_ok tr1 (MkRLWorld c rl callers false) w1 Hok0 Hrun1) as (Hok1 & _).
  assert (pc (rw_limiter w1) = TReturned) as Hpc1.
  { eapply rl_run_Stop_returned; [|done..]. simpl. unfold Stop_returned.
    intros (cl & Hcl & Hin)%Exists_exists.
    rewrite Forall_forall in Hlogs. rewrite (Hlogs _ Hcl) in Hin.
    by apply elem_of_nil in Hin. }
  destruct (rl_run_returned _ _ _ Hpc1 Hrun2) as [Hpc2 Hs].
  pose proof (rl_run_tokens _ _ _ Hok1 Hrun2) as Ht.
  split_and!; [done..|lia].
Qed.

Lemma no_token_after_Stop_witness :
  ∃ rl w1 w2, NewRateLimiter 0 second 5 = Some rl
    ∧ rl_run [RTicker TkNewTicker; RTicker TkTick; RTicker TkSend; RStop 0]
        (MkRLWorld [] rl [MkCaller [CallStop] []; MkCaller [CallWait 0; CallWait 0] []]
           false) = Some w1
    ∧ rl_run [RWait 1 CaseToken] w1 = Some w2
    ∧ tokens (rw_limiter w1) = 1 ∧ tokens (rw_limiter w2) = 0
    ∧ rl_exec (RWait 1 CaseToken) w2 = None
    ∧ pc (rw_limiter w2) = TReturned.
Proof.
  eexists _, _, _. split; [reflexivity|]. split; [reflexivity|].
  split; [reflexivity|]. split; [reflexivity|]. split; [reflexivity|].
  split; [reflexivity|].
  refine (proj1 (no_token_after_Stop 0 second 5 _ []
    [MkCaller [CallStop] []; MkCaller [CallWait 0; CallWait 0] []]
    [RTicker TkNewTicker; RTicker TkTick; RTicker TkSend; RStop 0] _
    [RWait 1 CaseToken] _ eq_refl _ eq_refl _ eq_refl)).
  - by repeat constructor.
  - apply Exists_cons_hd. simpl. apply list_elem_of_here.
Defined.

(** ** The limiter with a full channel *)

Lemma rl_exec_blocked_full a w w' :
  blocked_full (rw_limiter w) → is_token_wait a = false →
  rl_exec a w = Some w' →
  rw_limiter w' = rw_limiter w ∧ is_limiter_move a = false.
Proof.
  intros (Hpc & Hfull & Hcl) Hnt. unfold rl_exec. destruct (rw_crashed w); [done|].
  destruct a.
  - destruct (is_done c _); [done|]. by intros [= <-].
  - unfold ticker_exec, send. unfold tokens in Hfull.
    rewrite Hpc, Hcl, Hfull, Nat.ltb_irrefl. by destruct t.
  - destruct (rw_callers w !! i) as [[[|[ctx|] rest] lg]|]; try done.
    destruct br; [done|]. unfold Wait. destruct (is_done _ _); [|done].
    by intros [= <-].
  - destruct (rw_callers w !! i) as [[[|[ctx|] rest] lg]|]; try done.
    unfold Stop. by rewrite Hpc.
Qed.

(** [X14] Once the limiter's goroutine is in its send with the token
    channel full, it is out of reach until a token is taken: as long as no
    [Wait] takes one, it does not move, whichever contexts are cancelled
    meanwhile, and no [Stop] returns. *)
Theorem full_channel_parks_the_goroutine w tr w' :
  blocked_full (rw_limiter w) →
  forallb (λ a, negb (is_token_wait a)) tr = true →
  rl_run tr w = Some w' →
  rw_limiter w' = rw_limiter w
  ∧ forallb (λ a, negb (is_limiter_move a)) tr = true
  ∧ Stop (rw_limiter w') = None
  ∧ ∀ t, ticker_exec t (rw_cancelled w') (rw_limiter w') = Blocked.
Proof.
  intros Hb. revert w Hb. induction tr as [|a tr IH]; intros w Hb; simpl.
  - intros _ [= <-]. destruct Hb as (Hpc & Hfull & Hcl). split_and!; try done.
    + unfold Stop. by rewrite Hpc.
    + intros t. unfold ticker_exec, send. unfold tokens in Hfull.
      rewrite Hpc, Hcl, Hfull, Nat.ltb_irrefl. by destruct t.
  - intros [Ha Htr]%andb_true_iff. destruct (rl_exec a w) as [w1|] eqn:He; [|done].
    intros Hrun.
    apply negb_true_iff in Ha.
    destruct (rl_exec_blocked_full _ _ _ Hb Ha He) as [Hl Hm].
    destruct (IH w1 ltac:(by rewrite Hl) Htr Hrun) as (Hl' & Hm' & Hs & Ht).
    split_and!; try done.
    + congruence.
    + by rewrite Hm.
Qed.

Lemma full_channel_parks_the_goroutine_witness :
  ∃ w', rl_run [RCancel 0; RWait 1 CaseDone]
          (MkRLWorld [] (MkRateLimiter (Chan [tt] 1 false) 0 second 1 TSend)
             [MkCaller [CallStop] []; MkCaller [CallWait 0] []] false) = Some w'
    ∧ pc (rw_limiter w') = TSend
    ∧ is_done (rl_ctx (rw_limiter w')) (rw_cancelled w') = true
    ∧ rw_callers w' = [MkCaller [CallStop] []; MkCaller [] [RetWait false]]
    ∧ Stop (rw_limiter w') = None.
Proof.
  eexists. split; [reflexivity|]. split; [reflexivity|]. split; [reflexivity|].
  split; [reflexivity|].
  refine (proj1 (proj2 (proj2 (full_channel_parks_the_goroutine
    (MkRLWorld [] (MkRateLimiter (Chan [tt] 1 false) 0 second 1 TSend)
       [MkCaller [CallStop] []; MkCaller [CallWait 0] []] false)
    [RCancel 0; RWait 1 CaseDone] _ _ eq_refl eq_refl)))).
  by repeat split.
Defined.

(** ** A limiter that has stopped *)

Ltac starved_tac :=
  unfold in_urls, in_results, tokens in *; simpl in *;
  repeat match goal with
  | H : seeder _ = _ |- _ => rewrite ?H in *; clear H
  | H : buf _ = _ |- _ => rewrite ?H in *; clear H
  end;
  simpl in *; repeat (progress (rewrite ?length_app in *; simpl in *)); try lia.

Lemma exec_starved urls k a w w' :
  starved urls k w → k < length urls →
  is_done (ctx w) (cancelled w') = false →
  exec a w = Some w' → starved urls k w'.
Proof.
  intros Hst Hk Hnd Ha.
  assert (wf (length urls) w') as Hwf' by (eapply exec_wf; [apply Hst|done]).
  assert (is_done (ctx w) (cancelled w) = false) as Hctx.
  { destruct (is_done (ctx w) (cancelled w)) eqn:Hd; [|done].
    apply exec_fixed in Ha as (_ & _ & _ & Hmono). by rewrite (Hmono _ Hd) in Hnd. }
  clear Hnd. destruct Hst as [Hwf Hpc Hne Hrange Hitems Htok Hsup].
  revert Ha. unfold exec. rewrite (wf_crashed _ _ Hwf), Hctx, Hsup.
  destruct a; try done.
  - (* a context is cancelled *)
    destruct (is_done c _); [done|]. destruct (_ || _); [|done].
    intros [= <-]. by constructor.
  - (* the limiter's goroutine *)
    by rewrite ticker_exec_returned.
  - (* seeder: send *)
    destruct (seeder w) as [[|u rest]|] eqn:Hs; try done.
    destruct (send u (urlChan w)) eqn:Hsend; simpl; try done.
    + intros [= <-]. apply send_Ready in Hsend as (Hc & _ & ->).
      constructor; simpl; try done.
      * intros Hin. destruct (Hrange Hin). congruence.
      * starved_tac.
    + intros [= <-]. by apply wf_crashed in Hwf'.
  - (* seeder: cancelled *)
    by destruct (seeder w) as [[|]|].
  - (* seeder: end of loop *)
    destruct (seeder w) as [[|u rest]|] eqn:Hs; try done.
    destruct (close (urlChan w)) eqn:Hcl; simpl; try done.
    + intros [= <-]. apply close_Ready in Hcl as (Hc & ->).
      constructor; simpl; try done.
      * intros Hin. destruct (Hrange Hin). congruence.
      * starved_tac.
    + intros [= <-]. by apply wf_crashed in Hwf'.
  - (* worker: range *)
    destruct (workers w !! i) as [[]|] eqn:Hi; try done.
    destruct (recv (urlChan w)) as [[[u|] ch]| |] eqn:Hr; try done; intros [= <-].
    + apply recv_Some in Hr as (Hb & Hcap & Hcl).
      pose proof (bind_insert_length w_urls _ _ _ (WSelectToken u) Hi) as Hu.
      pose proof (bind_insert_length w_results _ _ _ (WSelectToken u) Hi) as Hr.
      pose proof (sum_insert scraping _ _ _ (WSelectToken u) Hi) as Hsc.
      constructor; simpl; try done.
      * by rewrite length_insert.
      * intros Hin. apply elem_of_insert_other with (x := WRange) in Hin; [|done..].
        destruct (Hrange Hin). congruence.
      * starved_tac.
      * starved_tac.
    + apply recv_None in Hr as (Hb & Hcl & _).
      destruct (worker_live_wg _ _ _ _ Hwf Hi eq_refl) as (n & Hn & _ & _).
      unfold worker_return in *. rewrite Hn in *.
      pose proof (bind_insert_length w_urls _ _ _ WReturned Hi) as Hu.
      pose proof (bind_insert_length w_results _ _ _ WReturned Hi) as Hr.
      pose proof (sum_insert scraping _ _ _ WReturned Hi) as Hsc.
      constructor; simpl; try done.
      * by rewrite length_insert.
      * starved_tac.
      * starved_tac.
  - (* worker: token *)
    destruct (workers w !! i) as [[]|] eqn:Hi; try done.
    destruct (take_token (limiter w)) eqn:Ht; [|done]. intros [= <-].
    apply take_token_ok in Ht as (? & ? & ? & ? & Hp & Hlen); [|apply Hwf].
    pose proof (bind_insert_length w_urls _ _ _ (WScrape url) Hi) as Hu.
    pose proof (bind_insert_length w_results _ _ _ (WScrape url) Hi) as Hr.
    pose proof (sum_insert scraping _ _ _ (WScrape url) Hi) as Hsc.
    constructor; simpl; try done.
    + by rewrite Hp.
    + by rewrite length_insert.
    + intros Hin.
      apply elem_of_insert_other with (x := WSelectToken url) in Hin; [|done..].
      by apply Hrange.
    + starved_tac.
    + starved_tac.
  - (* worker: cancelled before the token *)
    by destruct (workers w !! i) as [[]|].
  - (* worker: scrapeFunc *)
    destruct (workers w !! i) as [[]|] eqn:Hi; try done. intros [= <-].
    pose proof (bind_insert_length w_urls _ _ _
                  (WSelectSend (work w false url)) Hi) as Hu.
    pose proof (bind_insert_length w_results _ _ _
                  (WSelectSend (work w false url)) Hi) as Hr.
    pose proof (sum_insert scraping _ _ _ (WSelectSend (work w false url)) Hi) as Hsc.
    constructor; simpl; try done.
    + by rewrite length_insert.
    + intros Hin. apply elem_of_insert_other with (x := WScrape url) in Hin; [|done..].
      by apply Hrange.
    + starved_tac.
    + starved_tac.
  - (* worker: send *)
    destruct (workers w !! i) as [[]|] eqn:Hi; try done.
    destruct (send r (results w)) eqn:Hsend; simpl; try done.
    + intros [= <-]. apply send_Ready in Hsend as (_ & _ & ->).
      pose proof (bind_insert_length w_urls _ _ _ WRange Hi) as Hu.
      pose proof (bind_insert_length w_results _ _ _ WRange Hi) as Hr.
      pose proof (sum_insert scraping _ _ _ WRange Hi) as Hsc.
      constructor; simpl; try done.
      * by rewrite length_insert.
      * intros Hin.
        apply elem_of_insert_other with (x := WSelectSend r) in Hin; [|done..].
        by apply Hrange.
      * starved_tac.
      * starved_tac.
    + intros [= <-]. by apply wf_crashed in Hwf'.
  - (* worker: cancelled before the send *)
    by destruct (workers w !! i) as [[]|].
  - (* wg.Wait: some worker still waits for a token *)
    destruct (wg w) eqn:Hw; [|done]. exfalso.
    rewrite (wf_wg _ _ Hwf) in Hw.
    pose proof (all_returned _ Hw) as Hall.
    assert (WReturned ∈ workers w) as Hin.
    { destruct (workers w) as [|p l] eqn:Hws; [simpl in Hne; lia|].
      rewrite (Hall p) by (by left). by left. }
    destruct (Hrange Hin) as [Hcl Hb].
    rewrite (wf_urlclosed _ _ Hwf) in Hcl.
    unfold in_urls, in_results in *.
    rewrite (all_returned_bind w_urls) in Hitems by done.
    rewrite Hb in Hitems. destruct (seeder w); [done|]. simpl in *. lia.
  - (* the caller reads *)
    destruct (recv (results w)) as [[[r|] ch]| |] eqn:Hr; try done.
    destruct (drained w) eqn:Hd; [done|]. intros [= <-].
    apply recv_Some in Hr as (Hb & Hcap & Hcl).
    constructor; simpl; try done; starved_tac.
  - (* the caller sees the end *)
    destruct (recv (results w)) as [[[r|] ch]| |] eqn:Hr; try done.
    destruct (drained w) eqn:Hd; [done|]. by intros [= <-].
Qed.

Lemma run_starved urls k tr w w' :
  starved urls k w → k < length urls →
  is_done (ctx w) (cancelled w') = false →
  run tr w = Some w' → starved urls k w'.
Proof.
  revert w. induction tr as [|a tr IH]; intros w Hst Hk; simpl.
  - by intros _ [= <-].
  - intros Hnd. destruct (exec a w) as [w1|] eqn:He; [|done]. intros Hrun.
    pose proof (exec_fixed _ _ _ He) as (Hc1 & _).
    pose proof (run_fixed _ _ _ Hrun) as (_ & _ & _ & Hmono).
    apply (IH w1); [|done|by rewrite Hc1|done].
    apply (exec_starved urls k a w w1 Hst Hk); [|done].
    destruct (is_done (ctx w) (cancelled w1)) eqn:Hd; [|done].
    rewrite <- Hc1 in Hd. rewrite <- Hc1 in Hnd. by rewrite (Hmono _ Hd) in Hnd.
Qed.

Lemma ScrapeURLs_starved s rl c cx urls w0 :
  rlm s = Some rl → rl_good rl → pc rl = TReturned → (1 ≤ maxWorkers s)%Z →
  ScrapeURLs s c cx urls = inr w0 →
  starved urls (tokens rl) w0 ∧ ctx w0 = cx.
Proof.
  intros Hrl Hgood Hpc Hmw Hw0.
  assert (wf (length urls) w0) as Hwf0.
  { eapply ScrapeURLs_wf; [|done]. intros rl' ?. by simplify_eq. }
  revert Hwf0 Hw0. unfold ScrapeURLs. rewrite Hrl. intros Hwf0 [= <-].
  split; [|done]. constructor; simpl; try done.
  - rewrite length_replicate. lia.
  - by intros [? _]%elem_of_replicate.
  - unfold in_urls, in_results. simpl. rewrite !replicate_bind_nil by done.
    simpl. rewrite app_nil_r. lia.
  - unfold in_results. simpl. rewrite replicate_bind_nil by done. simpl.
    generalize (Z.to_nat (maxWorkers s)). intros n.
    induction n as [|n IH]; simpl; [lia|]. exact IH.
Qed.

(** While the closing goroutine waits the caller cannot see the end. *)
Lemma starved_open urls k w :
  starved urls k w →
  closed (results w) = false ∧ drained w = false ∧ sup w = SupWait
  ∧ length (received w) ≤ k ∧ exec AReadClosed w = None.
Proof.
  intros [Hwf _ _ _ _ Htok Hsup].
  assert (closed (results w) = false) as Hcl.
  { by rewrite (wf_resclosed _ _ Hwf), Hsup. }
  split_and!; try done.
  - destruct (drained w) eqn:Hd; [|done].
    destruct (wf_drained _ _ Hwf Hd). congruence.
  - unfold in_results in Htok. rewrite !length_app in Htok. lia.
  - unfold exec, recv. rewrite (wf_crashed _ _ Hwf), Hcl.
    by destruct (buf (results w)).
Qed.

(** [X15] A call on a limiter whose goroutine has already returned gets
    no new tokens.  If fewer tokens are left than there are URLs, then
    for as long as the context of the call is not cancelled the channel
    [results] is never closed: the closing goroutine stays in
    [wg.Wait()], the caller receives at most one Result per token left
    and never sees the end of the stream, although every run is finite. *)
Theorem stopped_limiter_starves_the_call s rl c cx urls w0 tr w :
  rlm s = Some rl → rl_good rl → pc rl = TReturned →
  tokens rl < length urls → (1 ≤ maxWorkers s)%Z →
  ScrapeURLs s c cx urls = inr w0 → run tr w0 = Some w →
  is_done cx (cancelled w) = false →
  closed (results w) = false ∧ drained w = false
  ∧ sup w = SupWait
  ∧ length (received w) ≤ tokens rl
  ∧ exec AReadClosed w = None
  ∧ length tr ≤ measure w0.
Proof.
  intros Hrl Hgood Hpc Hk Hmw Hw0 Hrun Hnd.
  destruct (ScrapeURLs_starved _ _ _ _ _ _ Hrl Hgood Hpc Hmw Hw0) as [Hst0 Hcx].
  assert (starved urls (tokens rl) w) as Hst.
  { eapply run_starved; [done..| |done]. by rewrite Hcx. }
  destruct (starved_open _ _ _ Hst) as (? & ? & ? & ? & ?).
  split_and!; try done. apply run_measure in Hrun. lia.
Qed.

Lemma stopped_limiter_starves_the_call_witness :
  ∃ w, run [ASeedSend; ASeedSend; ASeedEnd; AWRecv 0; AWToken 0; AWScrape 0;
            AWSend 0; ARead; AWRecv 0] world_stopped = Some w
    ∧ length (received w) = 1 ∧ closed (results w) = false
    ∧ exec AReadClosed w = None.
Proof.
  assert (∃ w, run [ASeedSend; ASeedSend; ASeedEnd; AWRecv 0; AWToken 0; AWScrape 0;
                    AWSend 0; ARead; AWRecv 0] world_stopped = Some w
               ∧ is_done 1 (cancelled w) = false ∧ length (received w) = 1)
    as (w & Hrun & Hnd & Hlen)
    by (eexists; split; [vm_compute; reflexivity|]; split; reflexivity).
  exists w. split; [exact Hrun|]. split; [exact Hlen|].
  destruct (stopped_limiter_starves_the_call
              (MkScraper net_ok (Some limiter_stopped) 1 (scrapeURL net_ok))
              limiter_stopped [0] 1 ["a"; "b"]%string world_stopped
              [ASeedSend; ASeedSend; ASeedEnd; AWRecv 0; AWToken 0; AWScrape 0;
               AWSend 0; ARead; AWRecv 0] w eq_refl)
    as (Hcl & _ & _ & _ & Hread & _).
  - repeat split; simpl; try done; unfold second; lia.
  - reflexivity.
  - unfold tokens. simpl. lia.
  - simpl. lia.
  - reflexivity.
  - exact Hrun.
  - exact Hnd.
  - split; [exact Hcl|exact Hread].
Defined.

(** ** A second call *)

(** [s.rlm.Stop()] returns only in a rendezvous with the limiter's
    goroutine, which returns with it. *)
Lemma exec_Stop_returned a w w' :
  (sup w = SupReturned → pc (limiter w) = TReturned) →
  exec a w = Some w' →
  sup w' = SupReturned → pc (limiter w') = TReturned.
Proof.
  intros Hinv Ha Hs'. apply exec_frame in Ha as [Hl Hs].
  assert (Stop (limiter w) = Some (limiter w') → pc (limiter w') = TReturned) as Hstop.
  { unfold Stop. destruct (pc (limiter w)); try done. by intros [= <-]. }
  destruct Hs as [Hs|[[_ Hs]|[[_ Hs]|(_ & _ & Hst)]]]; try congruence; [|by auto].
  rewrite Hs in Hs'. specialize (Hinv Hs').
  destruct Hl as [->|[[t Ht]|[Ht|Ht]]]; [done| | |by auto].
  - by rewrite ticker_exec_returned in Ht.
  - unfold take_token in Ht. destruct (recv _) as [[? ch]| |]; try done.
    by injection Ht as <-.
Qed.

Lemma run_Stop_returned tr w w' :
  (sup w = SupReturned → pc (limiter w) = TReturned) →
  run tr w = Some w' →
  sup w' = SupReturned → pc (limiter w') = TReturned.
Proof.
  revert w. induction tr as [|a tr IH]; intros w Hinv; simpl.
  - by intros [= <-].
  - destruct (exec a w) as [w1|] eqn:Ha; [|done]. apply IH.
    by eapply exec_Stop_returned.
Qed.

(** [X16] A scraper with at least one worker, on a limiter made with
    arguments its goroutine accepts, serves one call.  When a call of
    [ScrapeURLs] has run to the point where its [s.rlm.Stop()] has
    returned, the limiter's goroutine has returned with it; a second call
    on the same scraper with more URLs than tokens are left never closes
    its channel while its context is not cancelled, and the caller
    receives at most one Result per token left. *)
Theorem second_call_never_completes s rl c cx urls w0 tr w cx' urls' w0' tr' w' :
  rlm s = Some rl → rl_good rl → (1 ≤ maxWorkers s)%Z →
  ScrapeURLs s c cx urls = inr w0 → run tr w0 = Some w →
  sup w = SupReturned →
  tokens (limiter w) < length urls' →
  ScrapeURLs (MkScraper (client s) (Some (limiter w)) (maxWorkers s) (scrapeFunc s))
    (cancelled w) cx' urls' = inr w0' →
  run tr' w0' = Some w' →
  is_done cx' (cancelled w') = false →
  pc (limiter w) = TReturned
  ∧ closed (results w') = false ∧ drained w' = false
  ∧ length (received w') ≤ tokens (limiter w)
  ∧ exec AReadClosed w' = None.
Proof.
  intros Hrl Hgood Hmw Hw0 Hrun Hsup Hk Hw0' Hrun' Hnd.
  assert (wf (length urls) w) as Hwf.
  { eapply run_wf; [|done]. eapply ScrapeURLs_wf; [|done].
    intros rl' ?. by simplify_eq. }
  assert (pc (limiter w) = TReturned) as Hpc.
  { eapply run_Stop_returned; [|done..]. revert Hw0. unfold ScrapeURLs.
    rewrite Hrl. by intros [= <-]. }
  destruct (ScrapeURLs_starved
              (MkScraper (client s) (Some (limiter w)) (maxWorkers s) (scrapeFunc s))
              (limiter w) _ _ _ _ eq_refl (wf_limiter _ _ Hwf) Hpc Hmw Hw0')
    as [Hst0 Hcx].
  assert (starved urls' (tokens (limiter w)) w') as Hst.
  { eapply run_starved; [done..| |done]. by rewrite Hcx. }
  destruct (starved_open _ _ _ Hst) as (? & ? & ? & ? & ?).
  by split_and!.
Qed.

Lemma second_call_never_completes_witness :
  ∃ w w',
    run [ATicker TkNewTicker; ASeedSend; ASeedEnd; ATicker TkTick; ATicker TkSend;
         AWRecv 0; AWToken 0; AWScrape 0; AWSend 0; AWRecv 0;
         ASupWait; ASupClose; ASupStop; ARead; AReadClosed] world_a = Some w
    ∧ drained w = true ∧ received w = [scrapeURL net_ok false "a"%string]
    ∧ run [ASeedSend; ASeedEnd; AWRecv 0]
        (MkWorld (cancelled w) 0 (scrapeURL net_ok) (limiter w) (make 1) (make 1)
           (SeedLoop ["b"%string]) [WRange] 1 SupWait [] false false) = Some w'
    ∧ closed (results w') = false ∧ received w' = [].
Proof.
  assert (∃ w, run [ATicker TkNewTicker; ASeedSend; ASeedEnd; ATicker TkTick;
                    ATicker TkSend; AWRecv 0; AWToken 0; AWScrape 0; AWSend 0;
                    AWRecv 0; ASupWait; ASupClose; ASupStop; ARead; AReadClosed]
                 world_a = Some w
               ∧ sup w = SupReturned ∧ tokens (limiter w) < 1
               ∧ drained w = true ∧ received w = [scrapeURL net_ok false "a"%string])
    as (w & Hrun & Hsup & Htok & Hdr & Hrec).
  { eexists. split; [vm_compute; reflexivity|]. split; [reflexivity|].
    split; [unfold tokens; simpl; lia|]. split; reflexivity. }
  assert (∃ w', run [ASeedSend; ASeedEnd; AWRecv 0]
        (MkWorld (cancelled w) 0 (scrapeURL net_ok) (limiter w) (make 1) (make 1)
           (SeedLoop ["b"%string]) [WRange] 1 SupWait [] false false) = Some w'
            ∧ is_done 0 (cancelled w') = false ∧ received w' = [])
    as (w' & Hrun' & Hnd & Hrec').
  { revert Hrun. vm_compute. intros [= <-]. eexists. split; [reflexivity|].
    split; reflexivity. }
  exists w, w'. split; [exact Hrun|]. split; [exact Hdr|]. split; [exact Hrec|].
  split; [exact Hrun'|].
  destruct (second_call_never_completes scraper1 limiter5 [] 0 ["a"%string] world_a
              [ATicker TkNewTicker; ASeedSend; ASeedEnd; ATicker TkTick;
               ATicker TkSend; AWRecv 0; AWToken 0; AWScrape 0; AWSend 0;
               AWRecv 0; ASupWait; ASupClose; ASupStop; ARead; AReadClosed] w
              0 ["b"%string]
              (MkWorld (cancelled w) 0 (scrapeURL net_ok) (limiter w) (make 1) (make 1)
                 (SeedLoop ["b"%string]) [WRange] 1 SupWait [] false false)
              [ASeedSend; ASeedEnd; AWRecv 0] w'
              eq_refl limiter5_good) as (_ & Hcl & _).
  - simpl. lia.
  - reflexivity.
  - exact Hrun.
  - exact Hsup.
  - exact Htok.
  - reflexivity.
  - exact Hrun'.
  - exact Hnd.
  - split; [exact Hcl|exact Hrec'].
Defined.
